(** * claspy: STR profile matching against the Cellosaurus database

    A shallow embedding of the core of claspy (markers.py, str_profile.py,
    result.py, db.py) and the properties of it stated in the specification.

    Conventions of the embedding.
    - Python [str] is [string]; the strings of interest are ASCII (marker
      names, allele tokens, line codes), and [lower] acts on ASCII letters.
    - A Python [dict] is an association list in insertion order with unique
      keys ([dict_set] overwrites in place, as Python does); a Python [set]
      is a [gset].
    - A raised exception is the left injection of a sum: every fallible
      function returns [exn + A].
    - A Python [float] obtained by dividing two integers is the exact
      rational [n # d] in [Q].  True division of integers is correctly
      rounded, hence monotone, and exact on the values 0 and 1: bounds,
      equalities with 0.0 or 1.0 and equal operands carry over to the
      floating-point result. *)

From Stdlib Require Import QArith String Ascii DecimalString.
From stdpp Require Import gmap strings list sorting.

Open Scope string_scope.
Open Scope list_scope.

(** ** Exceptions *)

Inductive exn : Type :=
  | ValueError (msg : string)
  | KeyError (msg : string)
  | TypeError (msg : string)
  | AssertionError (msg : string)
  | AttributeError (msg : string)
  | IndexError (msg : string)
  | UnboundLocalError (msg : string)
  | ZeroDivisionError.

Definition res (A : Type) : Type := exn + A.

Definition raise {A} (e : exn) : res A := inl e.
Definition ret {A} (a : A) : res A := inr a.
Definition bind {A B} (m : res A) (k : A → res B) : res B :=
  match m with
  | inl e => inl e
  | inr a => k a
  end.

Notation "'let*' x ':=' m 'in' k" := (bind m (λ x, k))
  (at level 10, x pattern, m at level 100, k at level 200, only parsing).

(** [for x in l: body] over a fallible body. *)
Fixpoint foldM {A S} (body : S → A → res S) (s : S) (l : list A) : res S :=
  match l with
  | [] => ret s
  | x :: l' => let* s' := body s x in foldM body s' l'
  end.

Fixpoint mapM {A B} (f : A → res B) (l : list A) : res (list B) :=
  match l with
  | [] => ret []
  | x :: l' => let* y := f x in let* ys := mapM f l' in ret (y :: ys)
  end.

(** ** Lists *)

(** The longest prefix of a list whose elements all pass a test. *)
Fixpoint take_while {A} (f : A → bool) (l : list A) : list A :=
  match l with
  | [] => []
  | x :: l' => if f x then x :: take_while f l' else []
  end.

(** What is left of the list after that prefix. *)
Fixpoint drop_while {A} (f : A → bool) (l : list A) : list A :=
  match l with
  | [] => []
  | x :: l' => if f x then drop_while f l' else l
  end.

(** ** Strings *)

Definition chars (s : string) : list ascii := list_ascii_of_string s.
Definition str (l : list ascii) : string := string_of_list_ascii l.

(** [s.replace(c, '')] for a one-character [c]. *)
Definition remove_char (c : ascii) (s : string) : string :=
  str (filter (λ x, x ≠ c) (chars s)).

Definition lower_char (c : ascii) : ascii :=
  let n := N_of_ascii c in
  if ((65 <=? n) && (n <=? 90))%N then ascii_of_N (n + 32) else c.

(** [s.lower()] *)
Definition lower (s : string) : string := str (lower_char <$> chars s).

(** [sep.join(l)] *)
Definition join (sep : string) (l : list string) : string := String.concat sep l.

(** [s.split(c)] for a one-character separator: never the empty list. *)
Fixpoint split_chars (c : ascii) (cur : list ascii) (l : list ascii) : list string :=
  match l with
  | [] => [str (reverse cur)]
  | x :: l' =>
      if decide (x = c) then str (reverse cur) :: split_chars c [] l'
      else split_chars c (x :: cur) l'
  end.

Definition split (c : ascii) (s : string) : list string := split_chars c [] (chars s).

(** ** Dictionaries in insertion order *)

Section dict.
Context {K V : Type} `{EqDecision K}.

Fixpoint dict_get (k : K) (d : list (K * V)) : option V :=
  match d with
  | [] => None
  | (k', v) :: d' => if decide (k = k') then Some v else dict_get k d'
  end.

(** [d[k] = v]: a known key keeps its place, a new one goes last. *)
Fixpoint dict_set (k : K) (v : V) (d : list (K * V)) : list (K * V) :=
  match d with
  | [] => [(k, v)]
  | (k', v') :: d' =>
      if decide (k = k') then (k', v) :: d' else (k', v') :: dict_set k v d'
  end.

Definition dict_has (k : K) (d : list (K * V)) : bool :=
  bool_decide (is_Some (dict_get k d)).

Definition dict_keys (d : list (K * V)) : list K := d.*1.
Definition dict_values (d : list (K * V)) : list V := d.*2.
End dict.

(** ** Sorting

    [sorted] is stable and uses only [<].  It is embedded as the stable
    insertion sort; on a strict weak order every stable sort returns the
    same list.  [sorted(l, reverse=True)] is, as in CPython, the reversal
    of the stable sort of the reversed list. *)

Section sorting.
Context {A : Type} (lt : A → A → bool).

Fixpoint insert_sorted (x : A) (l : list A) : list A :=
  match l with
  | [] => [x]
  | y :: l' => if lt y x then y :: insert_sorted x l' else x :: y :: l'
  end.

Fixpoint sorted (l : list A) : list A :=
  match l with
  | [] => []
  | x :: l' => insert_sorted x (sorted l')
  end.

Definition sorted_reverse (l : list A) : list A := reverse (sorted (reverse l)).
End sorting.

(** The same sort over a comparison that may raise (values of different
    types).  On a list of two elements the single comparison made is
    [l[1] < l[0]], as in CPython. *)
Section sorting_fallible.
Context {A : Type} (lt : A → A → res bool).

Fixpoint insert_sortedM (x : A) (l : list A) : res (list A) :=
  match l with
  | [] => ret [x]
  | y :: l' =>
      let* b := lt y x in
      if b : bool then let* r := insert_sortedM x l' in ret (y :: r)
      else ret (x :: y :: l')
  end.

Fixpoint sortedM (l : list A) : res (list A) :=
  match l with
  | [] => ret []
  | x :: l' => let* s := sortedM l' in insert_sortedM x s
  end.

Definition sortedM_reverse (l : list A) : res (list A) :=
  let* s := sortedM (reverse l) in ret (reverse s).
End sorting_fallible.

(** ** markers.py *)

Definition valid_names : list (Z * list string) :=
  [ (9606%Z,
      [ "Amelogenin"; "CSF1PO"; "D10S1248"; "D12S391"; "D13S317"; "D16S539";
        "D17S1301"; "D18S51"; "D19S433"; "D1S1656"; "D20S482"; "D21S11";
        "D22S1045"; "D2S1338"; "D2S441"; "D3S1358"; "D4S2408"; "D5S818";
        "D6S1043"; "D7S820"; "D8S1179"; "D9S1122"; "DXS10074"; "DXS101";
        "DXS10103"; "DXS10135"; "DXS7132"; "DXS7423"; "DXS8378"; "DYF387S1";
        "DYS19"; "DYS385a-b"; "DYS389I"; "DYS389II"; "DYS390"; "DYS391";
        "DYS391"; "DYS392"; "DYS437"; "DYS438"; "DYS439"; "DYS448"; "DYS460";
        "DYS481"; "DYS505"; "DYS522"; "DYS533"; "DYS549"; "DYS570"; "DYS570";
        "DYS576"; "DYS576"; "DYS612"; "DYS635"; "DYS643"; "F13A01"; "F13B";
        "FESFPS"; "FGA"; "HPRTB"; "LPL"; "Penta C"; "Penta D"; "Penta E";
        "SE33"; "TH01"; "TPOX"; "Y-GATA-H4"; "vWA" ]);
    (10090%Z,
      [ "Mouse STR 1-1"; "Mouse STR 1-2"; "Mouse STR 2-1"; "Mouse STR 3-2";
        "Mouse STR 4-2"; "Mouse STR 5-5"; "Mouse STR 6-4"; "Mouse STR 6-7";
        "Mouse STR 7-1"; "Mouse STR 8-1"; "Mouse STR 9-2"; "Mouse STR 11-2";
        "Mouse STR 12-1"; "Mouse STR 13-1"; "Mouse STR 15-3"; "Mouse STR 17-2";
        "Mouse STR 18-3"; "Mouse STR 19-2"; "Mouse STR X-1" ]);
    (9615%Z,
      [ "Dog FHC2010"; "Dog FHC2054"; "Dog FHC2079"; "Dog PEZ1"; "Dog PEZ3";
        "Dog PEZ5"; "Dog PEZ6"; "Dog PEZ8"; "Dog PEZ12"; "Dog PEZ20" ]) ].

Definition species_by_taxid : list (Z * string) :=
  [ (9606%Z, "human"); (10090%Z, "mouse"); (9615%Z, "dog") ].

(** [name.replace(' ', '').lower()] *)
Definition normalize (name : string) : string := lower (remove_char " " name).

(** The inner loop of [standardize_name]: the first name of one species
    whose normalised spelling is the candidate. *)
Fixpoint find_species_name (candidate : string) (species_names : list string)
    : option string :=
  match species_names with
  | [] => None
  | species_name :: rest =>
      if decide (candidate = normalize species_name) then Some species_name
      else find_species_name candidate rest
  end.

(** The outer loop over [valid_names.items()]. *)
Fixpoint find_in_table (candidate : string) (table : list (Z * list string))
    : option (string * Z) :=
  match table with
  | [] => None
  | (taxid, species_names) :: rest =>
      match find_species_name candidate species_names with
      | Some species_name => Some (species_name, taxid)
      | None => find_in_table candidate rest
      end
  end.

(** [standardize_name]: [None] stands for the pair [(None, None)]. *)
Definition standardize_name (name : string) : option (string * Z) :=
  find_in_table (normalize name) valid_names.

(** The state of the loop of [validate_names]: the set [taxids] and the
    dict [valid]. *)
Definition validate_state : Type := gset (option Z) * list (string * option string).

Definition validate_step (st : validate_state) (name : string) : validate_state :=
  let r := standardize_name name in
  ({[ snd <$> r ]} ∪ st.1, dict_set name (fst <$> r) st.2).

Definition validate_loop (marker_names : list string) : validate_state :=
  foldl validate_step (∅, []) marker_names.

(** [[name for name, valid_name in valid.items() if valid_name is None]] *)
Definition invalid_names (valid : list (string * option string)) : list string :=
  (filter (λ kv, kv.2 = None) valid).*1.

(** The entries of [valid] that hold a name: all of them once [None] is
    known not to be in [taxids]. *)
Definition resolved_names (valid : list (string * option string))
    : list (string * string) :=
  omap (λ kv, match kv.2 with Some c => Some (kv.1, c) | None => None end) valid.

(** [[species_by_taxid[taxid] for taxid in taxids]] *)
Definition species_of (taxids : list (option Z)) : res (list string) :=
  mapM (λ t, match t with
             | Some taxid =>
                 match dict_get taxid species_by_taxid with
                 | Some sp => ret sp
                 | None => raise (KeyError "taxid")
                 end
             | None => raise (KeyError "None")
             end) taxids.

(** The members of [taxids] that are identifiers: all of them once [None]
    is known not to be in [taxids]. *)
Definition resolved_taxids (taxids : gset (option Z)) : list Z :=
  omap id (elements taxids).

(** [taxids.pop()] *)
Definition set_pop (taxids : gset (option Z)) : res Z :=
  match resolved_taxids taxids with
  | [] => raise (KeyError "pop from an empty set")
  | taxid :: _ => ret taxid
  end.

Definition validate_names (marker_names : list string)
    : res (list (string * string) * Z) :=
  let '(taxids, valid) := validate_loop marker_names in
  if bool_decide (None ∈ taxids) then
    raise (ValueError ("invalid marker name(s): " +:+ join ", " (invalid_names valid)))
  else if bool_decide (1 < size taxids)%nat then
    let* species := species_of (elements taxids) in
    raise (ValueError
      ("list of marker names includes markers from different species: "
        +:+ join ", " (sorted String.ltb species)))
  else
    let* taxid := set_pop taxids in
    ret (resolved_names valid, taxid).

(** ** str_profile.py *)

(** The values held by the metadata of a profile: strings and integers, and
    lists of them ([taxid] and [organism] of a record with several [OX]
    lines). *)
Inductive atom : Type :=
  | VInt (z : Z)
  | VStr (s : string).

Inductive value : Type :=
  | VAtom (a : atom)
  | VList (l : list atom).

Global Instance atom_eq_dec : EqDecision atom.
Proof. solve_decision. Defined.
Global Instance value_eq_dec : EqDecision value.
Proof. solve_decision. Defined.

(** A [Profile] object. [py_id] is the identity of the object ([id(self)]):
    the class defines no [__eq__], so [==] on profiles is identity. *)
Record Profile : Type := mkProfile {
  py_id : nat;
  _meta : list (string * value);
  taxid : Z;
  _alleles : list (string * gset string)
}.

(** [set(alleles.replace(' ', '').split(','))] *)
Definition parse_allele_string (alleles : string) : gset string :=
  list_to_set (split "," (remove_char " " alleles)).

(** The loop of [Profile.__init__] over [alleles.items()]. *)
Definition init_step (valid : list (string * string))
    (acc : list (string * gset string)) (item : string * string)
    : res (list (string * gset string)) :=
  match dict_get item.1 valid with
  | None => raise (KeyError item.1)
  | Some marker => ret (dict_set marker (parse_allele_string item.2) acc)
  end.

(** [Profile(alleles, meta)], creating the object [id]. *)
Definition Profile_init (id : nat) (alleles : list (string * string))
    (meta : list (string * value)) : res Profile :=
  let* vt := validate_names (dict_keys alleles) in
  let* als := foldM (init_step vt.1) [] alleles in
  ret {| py_id := id; _meta := meta; taxid := vt.2; _alleles := als |}.

(** [Profile.__iter__]: the (marker, allele) pairs, marker by marker. *)
Definition Profile_iter (p : Profile) : list (string * string) :=
  flat_map (λ ma, pair ma.1 <$> sorted String.ltb (elements ma.2)) (_alleles p).

(** [len(profile)] *)
Definition Profile_len (p : Profile) : nat := length (Profile_iter p).

(** [Profile.markers] *)
Definition markers (p : Profile) : gset string := list_to_set (dict_keys (_alleles p)).

(** [Profile.alleles(markers)] *)
Definition alleles (p : Profile) (ms : gset string) : gset (string * string) :=
  list_to_set (filter (λ ma, ma.1 ∈ ms) (Profile_iter p)).

(** [Profile.markers_for_scoring].  Without [amel] the result is a Python
    list of distinct markers, used for membership only. *)
Definition markers_for_scoring (query reference : Profile) (mode : string)
    (amel : bool) : gset string :=
  let ms :=
    if decide (mode = "intersect") then markers query ∩ markers reference
    else if decide (mode = "query") then markers query
    else markers reference in
  if amel then ms else filter (λ m, m ≠ "Amelogenin") ms.

(** [n / d] on integers. *)
Definition truediv (n d : nat) : res Q :=
  if decide (d = 0) then raise ZeroDivisionError
  else ret (Z.of_nat n # Pos.of_nat d).

(** [Profile.score] *)
Definition score (query reference : Profile) (algorithm mode : string)
    (amel : bool) : res (Q * nat) :=
  if bool_decide (algorithm ∉ ["Tanabe"; "query"; "reference"]) then
    raise (ValueError ("unsupported scoring algorithm '" +:+ algorithm +:+ "'"))
  else if bool_decide (mode ∉ ["intersect"; "query"; "reference"]) then
    raise (ValueError ("unsupported scoring mode '" +:+ mode +:+ "'"))
  else
    let ms := markers_for_scoring query reference mode amel in
    let query_alleles := size (alleles query ms) in
    let refr_alleles := size (alleles reference ms) in
    let shared_alleles := size (alleles query ms ∩ alleles reference ms) in
    let* sc :=
      if decide (0 < shared_alleles)%nat then
        if decide (algorithm = "Tanabe") then
          truediv (2 * shared_alleles) (query_alleles + refr_alleles)
        else if decide (algorithm = "query") then
          truediv shared_alleles query_alleles
        else
          truediv shared_alleles refr_alleles
      else ret 0%Q in
    ret (sc, shared_alleles).

(** *** Rendering of allele sets *)

Definition is_digit (c : ascii) : bool :=
  let n := N_of_ascii c in ((48 <=? n) && (n <=? 57))%N.

(** The number written by a string of decimal digits. *)
Definition digits_value (ds : list ascii) : N :=
  foldl (λ acc c, (10 * acc + (N_of_ascii c - 48))%N) 0%N ds.

(** [str(n)] for a natural number. *)
Definition str_N (n : N) : string := NilZero.string_of_uint (N.to_uint n).

(** The values [allele_transform] returns: a float, an int, or the string
    itself.  A float read from a decimal literal is kept as its two digit
    strings, the integer part and the fraction. *)
Inductive allele_value : Type :=
  | AFloat (ip fp : list ascii)
  | AInt (n : N)
  | ALetter (s : string).

(** [float(allele)] on the plain decimal literals [digits.digits] (one of
    the two parts may be empty).  Python's [float] reads more spellings
    (signs, exponents, underscores, surrounding blanks); the allele grammar
    of the database, [[\dXY,\. ]+], writes none of them. *)
Definition float_of_string (allele : string) : res allele_value :=
  match split "." allele with
  | [ip; fp] =>
      if forallb is_digit (chars ip) && forallb is_digit (chars fp)
         && negb (bool_decide (chars ip ++ chars fp = []))
      then ret (AFloat (chars ip) (chars fp))
      else raise (ValueError ("could not convert string to float: '" +:+ allele +:+ "'"))
  | _ => raise (ValueError ("could not convert string to float: '" +:+ allele +:+ "'"))
  end.

(** [re.match(r"^\d+$", allele)]: digits, where [$] also matches before a
    final newline. *)
Definition is_int_token (allele : string) : bool :=
  let cs := chars allele in
  let ds := match reverse cs with
            | c :: rest => if decide (c = "010"%char) then reverse rest else cs
            | [] => cs
            end in
  negb (bool_decide (ds = [])) && forallb is_digit ds.

(** [int(allele)] for such a token. *)
Definition int_of_token (allele : string) : N :=
  digits_value (filter (λ c, is_digit c = true) (chars allele)).

(** [Profile.allele_transform] *)
Definition allele_transform (allele : string) : res allele_value :=
  if bool_decide ("."%char ∈ chars allele) then float_of_string allele
  else if is_int_token allele then ret (AInt (int_of_token allele))
  else if bool_decide (allele ∈ ["X"; "Y"]) then ret (ALetter allele)
  else raise (ValueError ("unexpected allele '" +:+ allele +:+ "'")).

(** The number a numeric value stands for.  Python compares ints and floats
    by value; the floats of decimal literals of the size of allele numbers
    keep the order of the decimals. *)
Definition number (a : allele_value) : Q :=
  match a with
  | AFloat ip fp =>
      Z.of_N (digits_value (ip ++ fp)) # Pos.of_nat (10 ^ length fp)
  | AInt n => inject_Z (Z.of_N n)
  | ALetter _ => 0
  end.

Definition Qltb (x y : Q) : bool := negb (Qle_bool y x).

(** [a < b] on the values of [allele_transform]: numbers by value, strings
    by code points, and no order between a string and a number. *)
Definition allele_lt (a b : allele_value) : res bool :=
  match a, b with
  | ALetter s, ALetter t => ret (String.ltb s t)
  | ALetter _, _ | _, ALetter _ =>
      raise (TypeError "'<' not supported between instances of 'str' and a number")
  | _, _ => ret (Qltb (number a) (number b))
  end.

Fixpoint strip_zeros (ds : list ascii) : list ascii :=
  match ds with
  | c :: rest => if decide (c = "0"%char) then strip_zeros rest else ds
  | [] => []
  end.

(** [str(a)]: an int without leading zeros; a float as its decimal, with
    no leading zero beyond the first and no trailing zero beyond the first
    fraction digit (the shortest repr, for magnitudes in [1e-4, 1e16)). *)
Definition allele_str (a : allele_value) : string :=
  match a with
  | AFloat ip fp =>
      let i := strip_zeros ip in
      let f := reverse (strip_zeros (reverse fp)) in
      str (if decide (i = []) then ["0"%char] else i) +:+ "." +:+
      str (if decide (f = []) then ["0"%char] else f)
  | AInt n => str_N n
  | ALetter s => s
  end.

(** [Profile.allele_repr], on the allele set in its iteration order. *)
Definition allele_repr (allele_set : list string) : res string :=
  let* alleles := mapM allele_transform allele_set in
  let* alleles := sortedM allele_lt alleles in
  ret (join "," (allele_str <$> alleles)).

(** [Profile.allele_dict] *)
Definition allele_dict (p : Profile) : list (string * string) :=
  (λ ma, (ma.1, join "," (sorted String.ltb (elements ma.2)))) <$> _alleles p.

(** [Profile.marker_alleles]: [None] is the missing value [pd.NA]. *)
Definition marker_alleles (p : Profile) (ms : list string) : res (list (option string)) :=
  mapM (λ marker,
          match dict_get marker (_alleles p) with
          | None => ret None
          | Some al => let* r := allele_repr (elements al) in ret (Some r)
          end) ms.

(** *** Comparison of metadata values

    [==] and [<] as Python defines them on strings, integers and lists of
    them: values of different types are unequal and not ordered, lists are
    compared at the first position where they differ. *)

Definition atom_lt (a b : atom) : res bool :=
  match a, b with
  | VInt x, VInt y => ret (x <? y)%Z
  | VStr s, VStr t => ret (String.ltb s t)
  | _, _ => raise (TypeError "'<' not supported between instances of 'str' and 'int'")
  end.

Fixpoint list_lt (l m : list atom) : res bool :=
  match l, m with
  | [], [] => ret false
  | [], _ :: _ => ret true
  | _ :: _, [] => ret false
  | x :: l', y :: m' => if decide (x = y) then list_lt l' m' else atom_lt x y
  end.

Definition value_lt (a b : value) : res bool :=
  match a, b with
  | VAtom x, VAtom y => atom_lt x y
  | VList l, VList m => list_lt l m
  | _, _ => raise (TypeError "'<' not supported between instances of 'list' and 'str'")
  end.

(** [hash(v)] is defined on strings and integers, not on lists. *)
Definition hashable (v : value) : bool :=
  match v with VAtom _ => true | VList _ => false end.

(** [d[k]] on a metadata dict. *)
Definition getitem (d : list (string * value)) (k : string) : res value :=
  match dict_get k d with
  | Some v => ret v
  | None => raise (KeyError k)
  end.

(** [Profile.identifier], [Profile.source], [Profile.slug] *)
Definition Profile_identifier (p : Profile) : res value := getitem (_meta p) "identifier".
Definition Profile_source (p : Profile) : res value := getitem (_meta p) "source".
Definition Profile_slug (p : Profile) : res (value * value * value) :=
  let* i := Profile_identifier p in
  let* a := getitem (_meta p) "accession" in
  let* s := Profile_source p in
  ret (i, a, s).

(** [<] on two slugs, tuples of three values. *)
Definition slug_lt (s o : value * value * value) : res bool :=
  if negb (bool_decide (s.1.1 = o.1.1)) then value_lt s.1.1 o.1.1
  else if negb (bool_decide (s.1.2 = o.1.2)) then value_lt s.1.2 o.1.2
  else if negb (bool_decide (s.2 = o.2)) then value_lt s.2 o.2
  else ret false.

(** [Profile.__lt__] *)
Definition Profile_lt (self other : Profile) : res bool :=
  let* s := Profile_slug self in
  let* o := Profile_slug other in
  slug_lt s o.

(** ** result.py *)

(** [max(l)]: the first of the greatest elements; raises on an empty list. *)
Definition max_from {A} (lt : A → A → bool) (x : A) (l : list A) : A :=
  foldl (λ m y, if lt m y then y else m) x l.

Definition py_max {A} (lt : A → A → bool) (l : list A) : res A :=
  match l with
  | [] => raise (ValueError "max() arg is an empty sequence")
  | x :: l' => ret (max_from lt x l')
  end.

(** [len(set(l))] *)
Definition len_set (l : list value) : res nat :=
  if forallb hashable l then ret (length (remove_dups l))
  else raise (TypeError "unhashable type: 'list'").

Module ProfileResult.
(** [namedtuple("ProfileResult", "sample score shared_alleles reference")] *)
Record t : Type := mk {
  sample : value;
  score : Q;
  shared_alleles : nat;
  reference : Profile
}.

(** [a < b], the order of tuples: the first field where [a] and [b] differ
    decides.  Two fields differ when they are not the same object and not
    [==]; on references [==] is identity, and [<] is [Profile.__lt__]. *)
Definition lt (a b : t) : res bool :=
  if negb (bool_decide (sample a = sample b)) then value_lt (sample a) (sample b)
  else if negb (Qeq_bool (score a) (score b)) then ret (Qltb (score a) (score b))
  else if negb (shared_alleles a =? shared_alleles b)%nat then
    ret (shared_alleles a <? shared_alleles b)%nat
  else if negb (py_id (reference a) =? py_id (reference b))%nat then
    Profile_lt (reference a) (reference b)
  else ret false.

Definition summary (self : t) : res (Q * nat * value) :=
  let* src := Profile_source (reference self) in
  ret (score self, shared_alleles self, src).

Definition full_report (self : t) (markers : list string)
    : res (Q * nat * value * list (option string)) :=
  let* s := summary self in
  let* cells := marker_alleles (reference self) markers in
  ret (s, cells).
End ProfileResult.

Module CellLineResult.
(** A [CellLineResult] is a list of [ProfileResult]. *)
Notation t := (list ProfileResult.t) (only parsing).

Definition top_score (self : t) : res Q :=
  py_max Qltb (ProfileResult.score <$> self).

Definition top_score_shared_alleles (self : t) : res nat :=
  let* selected :=
    foldM (λ acc single_result,
             let* ts := top_score self in
             if Qeq_bool (ProfileResult.score single_result) ts
             then ret (acc ++ [ProfileResult.shared_alleles single_result])
             else ret acc) [] self in
  py_max Nat.ltb selected.

Definition identifier (self : t) : res value :=
  let* ids := mapM (λ r, Profile_identifier (ProfileResult.reference r)) self in
  let* n := len_set ids in
  if decide (n = 1%nat) then
    match ids with
    | i :: _ => ret i
    | [] => raise (IndexError "list index out of range")
    end
  else raise (AssertionError EmptyString).

Definition sample (self : t) : res value :=
  let samples := ProfileResult.sample <$> self in
  let* n := len_set samples in
  if decide (n = 1%nat) then
    match samples with
    | s :: _ => ret s
    | [] => raise (IndexError "list index out of range")
    end
  else raise (AssertionError EmptyString).

(** [sorted(self, reverse=True)], the first line of [summary] and of
    [full_report]. *)
Definition ranked (self : t) : res (list ProfileResult.t) :=
  sortedM_reverse ProfileResult.lt self.

Definition summary (self : t) : res (value * value * (Q * nat * value)) :=
  let* results := ranked self in
  match results with
  | [] => raise (IndexError "list index out of range")
  | best :: _ =>
      let* src := Profile_source (ProfileResult.reference best) in
      let* s := sample self in
      let* i := identifier self in
      ret (s, i, (ProfileResult.score best, ProfileResult.shared_alleles best, src))
  end.

(** The rows of [full_report]: sample, identifier, status, and the report
    of the best and of the worst result. *)
Definition full_report (self : t) (markers : list string)
    : res (list (value * value * string * (Q * nat * value * list (option string)))) :=
  let* results := ranked self in
  match results with
  | [] => raise (IndexError "list index out of range")
  | best :: _ =>
      let status := if (1 <? length results)%nat then "best" else "only" in
      let* s := sample self in
      let* i := identifier self in
      let* row := ProfileResult.full_report best markers in
      if (1 <? length results)%nat then
        let worst := List.last results best in
        let* s' := sample self in
        let* i' := identifier self in
        let* row' := ProfileResult.full_report worst markers in
        ret [(s, i, status, row); (s', i', "worst", row')]
      else ret [(s, i, status, row)]
  end.
End CellLineResult.

Module SearchResult.
Record t : Type := mk {
  query : Profile;
  minscore : Q;
  maxhits : Z;
  results_by_cell_line : list (value * CellLineResult.t)
}.

(** [SearchResult(query, minscore, maxhits)] *)
Definition init (query : Profile) (minscore : Q) (maxhits : Z) : t :=
  mk query minscore maxhits [].

(** [add_profile_result]: the dict is a [defaultdict], a new key starts
    from the empty [CellLineResult]. *)
Definition add_profile_result (self : t) (result : ProfileResult.t) : res t :=
  let* key := Profile_identifier (ProfileResult.reference result) in
  if hashable key then
    let current := default [] (dict_get key (results_by_cell_line self)) in
    ret (mk (query self) (minscore self) (maxhits self)
            (dict_set key (current ++ [result]) (results_by_cell_line self)))
  else raise (TypeError "unhashable type: 'list'").

(** [<] on the sort keys [(top_score, top_score_shared_alleles)]. *)
Definition key_lt (a b : Q * nat) : bool :=
  if negb (Qeq_bool a.1 b.1) then Qltb a.1 b.1 else (a.2 <? b.2)%nat.

(** The [sorted(..., key=..., reverse=True)] of [ids_by_score]: the keys
    are computed first, one per value. *)
Definition sorted_results (self : t) : res (list CellLineResult.t) :=
  let* keyed :=
    mapM (λ result,
            let* ts := CellLineResult.top_score result in
            let* tsa := CellLineResult.top_score_shared_alleles result in
            ret ((ts, tsa), result))
         (dict_values (results_by_cell_line self)) in
  ret (snd <$> sorted_reverse (λ a b, key_lt a.1 b.1) keyed).

(** The loop of [__iter__] from position [n] on; [ids_by_score] yields
    the identifier of the [n]-th sorted result when the loop asks for
    it. *)
Fixpoint iter_loop (self : t) (n : nat) (l : list CellLineResult.t)
    : res (list CellLineResult.t) :=
  match l with
  | [] => ret []
  | sorted_result :: l' =>
      let* identifier := CellLineResult.identifier sorted_result in
      if (0 <? maxhits self)%Z && (maxhits self <=? Z.of_nat n)%Z then ret []
      else
        let result := default [] (dict_get identifier (results_by_cell_line self)) in
        let* ts := CellLineResult.top_score result in
        if Qltb ts (minscore self) then ret []
        else
          let* rest := iter_loop self (S n) l' in
          ret (result :: rest)
  end.

(** [SearchResult.__iter__], as the list of the results yielded. *)
Definition iter (self : t) : res (list CellLineResult.t) :=
  let* l := sorted_results self in
  iter_loop self 0 l.

(** [SearchResult.summary]: one row per result yielded. *)
Definition summary (self : t) : res (list (value * value * (Q * nat * value))) :=
  let* results := iter self in
  mapM CellLineResult.summary results.
End SearchResult.

(** ** db.py: the persisted format *)

(** One object of the persisted format, [{"meta": ..., "alleles": ...}], and
    a document as [json.load] returns it: one object, an array of objects,
    or any other JSON value.  [json.dump] writes a document as a byte
    stream that is a function of the document alone (dicts are written in
    insertion order), and [json.load] reads such a stream back to the
    document written. *)
Record payload_t : Type := mkPayload {
  p_meta : list (string * value);
  p_alleles : list (string * string)
}.

Inductive document : Type :=
  | DObject (o : payload_t)
  | DArray (l : list payload_t)
  | DOther.

(** [Profile.payload] *)
Definition payload (p : Profile) : payload_t :=
  {| p_meta := _meta p; p_alleles := allele_dict p |}.

(** [CellosaurusDB.to_json]: the document handed to [json.dump]. *)
Definition to_json (db : list Profile) : document := DArray (payload <$> db).

(** The loop of [from_json]; the profiles created are the objects
    [id], [id + 1], ... *)
Fixpoint from_json_loop (id : nat) (l : list payload_t) : res (list Profile) :=
  match l with
  | [] => ret []
  | profile :: l' =>
      let* p := Profile_init id (p_alleles profile) (p_meta profile) in
      let* records := from_json_loop (S id) l' in
      ret (p :: records)
  end.

(** [CellosaurusDB.from_json] on the document [json.load] returned. *)
Definition from_json (id : nat) (doc : document) : res (list Profile) :=
  match doc with
  | DOther => raise (ValueError "unexpected data type")
  | DObject o => from_json_loop id [o]
  | DArray l => from_json_loop id l
  end.

(** ** db.py: the Cellosaurus flat file *)

(** Whitespace, as [str.strip] and the regex class [\s] have it on ASCII:
    tab, line feed, vertical tab, form feed, carriage return, the four
    separators FS, GS, RS, US, and the space. *)
Definition is_space (c : ascii) : bool :=
  let n := N_of_ascii c in
  ((9 <=? n) && (n <=? 13) || (28 <=? n) && (n <=? 32))%N.

(** [s.strip()] *)
Definition strip (s : string) : string :=
  str (reverse (drop_while is_space (reverse (drop_while is_space (chars s))))).

(** [s.startswith(p)] *)
Definition startswith (s p : string) : bool := String.prefix p s.

(** [sub in s] *)
Fixpoint contains (sub s : string) : bool :=
  String.prefix sub s ||
  match s with
  | EmptyString => false
  | String _ s' => contains sub s'
  end.

(** [s.split(sep)] for a separator of one character or more: [skip] counts
    the characters of a separator found that are still to be passed. *)
Fixpoint split_on (sep : string) (skip : nat) (cur : list ascii) (s : string)
    : list string :=
  match s with
  | EmptyString => [str (reverse cur)]
  | String c s' =>
      match skip with
      | S k => split_on sep k cur s'
      | O =>
          if String.prefix sep s
          then str (reverse cur) :: split_on sep (String.length sep - 1) [] s'
          else split_on sep 0 (c :: cur) s'
      end
  end.

Definition split_str (sep s : string) : list string := split_on sep 0 [] s.

(** [re.split(r"\s+", line, 1)]: the line cut at its first run of
    whitespace, or the line alone when it has none. *)
Fixpoint split_whitespace_once (cur : list ascii) (l : list ascii) : list string :=
  match l with
  | [] => [str (reverse cur)]
  | c :: l' =>
      if is_space c then [str (reverse cur); str (drop_while is_space l')]
      else split_whitespace_once (c :: cur) l'
  end.

(** What follows a literal prefix, if the string starts with it. *)
Fixpoint strip_prefix (p s : string) : option string :=
  match p, s with
  | EmptyString, _ => Some s
  | String a p', String b s' => if decide (a = b) then strip_prefix p' s' else None
  | String _ _, EmptyString => None
  end.

Definition not_newline (c : ascii) : bool := negb (bool_decide (c = "010"%char)).
Definition not_colon (c : ascii) : bool := negb (bool_decide (c = ":"%char)).

(** The class [[\dXY,\. ]] of the allele grammar. *)
Definition is_allele_char (c : ascii) : bool :=
  is_digit c || bool_decide (c ∈ ["X"; "Y"; ","; "."; " "]%char).

(** [re.match(r"OX   NCBI_TaxID=(\d+); ! ([^\n]+)", line)]: the two groups.
    Both repetitions are greedy and what follows each cannot start with a
    character of its class, so each group is the longest run. *)
Definition match_species (line : string) : option (string * string) :=
  match strip_prefix "OX   NCBI_TaxID=" line with
  | None => None
  | Some rest =>
      let taxid := take_while is_digit (chars rest) in
      match taxid, strip_prefix "; ! " (str (drop_while is_digit (chars rest))) with
      | _ :: _, Some rest' =>
          match take_while not_newline (chars rest') with
          | [] => None
          | organism => Some (str taxid, str organism)
          end
      | _, _ => None
      end
  end.

(** [re.match(r"ST   Source\(s\): ([^\n]+)", line)]: group 1. *)
Definition match_sources (line : string) : option string :=
  match strip_prefix "ST   Source(s): " line with
  | None => None
  | Some rest =>
      match take_while not_newline (chars rest) with
      | [] => None
      | sources => Some (str sources)
      end
  end.

(** [re.match(r"^ST   ([^:]+): ([\dXY,\. ]+)(.+)?", line)]: the marker up
    to the first colon, the longest run of allele characters, and the rest
    of the line if there is one ([None] for a group that took no part). *)
Definition match_alleles (line : string) : option (string * string * option string) :=
  match strip_prefix "ST   " line with
  | None => None
  | Some rest =>
      let marker := take_while not_colon (chars rest) in
      match marker, strip_prefix ": " (str (drop_while not_colon (chars rest))) with
      | _ :: _, Some rest' =>
          match take_while is_allele_char (chars rest') with
          | [] => None
          | allele_str =>
              let sources :=
                take_while not_newline (drop_while is_allele_char (chars rest')) in
              Some (str marker, str allele_str,
                    match sources with [] => None | _ => Some (str sources) end)
          end
      | _, _ => None
      end
  end.

(** [d[k].append(a)] on a metadata dict. *)
Definition append_item (d : list (string * value)) (k : string) (a : atom)
    : res (list (string * value)) :=
  match dict_get k d with
  | None => raise (KeyError k)
  | Some (VList l) => ret (dict_set k (VList (l ++ [a])) d)
  | Some (VAtom _) => raise (AttributeError "object has no attribute 'append'")
  end.

Module CellosaurusEntry.
(** The state of an entry: [meta], [alleles] (by source, then by marker)
    and the warnings printed to the standard error stream so far. *)
Record t : Type := mk {
  _data : list string;
  meta : list (string * value);
  alleles : list (string * list (string * string));
  warnings : list string
}.

Definition ATTRIBUTES : list (string * string) :=
  [("ID", "identifier"); ("AC", "accession"); ("SY", "synonyms")].

Definition parse_meta (self : t) (line : string) : res t :=
  if startswith line "ID" || startswith line "AC" || startswith line "SY" then
    match split_whitespace_once [] (chars line) with
    | [key; value] =>
        if dict_has key (meta self) then raise (AssertionError key)
        else
          match dict_get key ATTRIBUTES with
          | None => raise (KeyError key)
          | Some attribute =>
              ret (mk (_data self) (dict_set attribute (VAtom (VStr value)) (meta self))
                      (alleles self) (warnings self))
          end
    | _ => raise (ValueError "not enough values to unpack (expected 2, got 1)")
    end
  else if startswith line "OX" then
    match match_species line with
    | None => raise (ValueError ("cannot parse species of origin: " +:+ line))
    | Some (taxid, organism) =>
        let meta1 :=
          if dict_has "taxid" (meta self) then meta self
          else dict_set "organism" (VList []) (dict_set "taxid" (VList []) (meta self)) in
        let* meta2 := append_item meta1 "taxid" (VInt (Z.of_N (digits_value (chars taxid)))) in
        let* meta3 := append_item meta2 "organism" (VStr organism) in
        ret (mk (_data self) meta3 (alleles self) (warnings self))
    end
  else ret self.

Definition parse_sources (self : t) (line : string) : res t :=
  if startswith line "ST" && contains "Source" line then
    match match_sources line with
    | None => raise (ValueError ("could not parse sources: " +:+ line))
    | Some source_string =>
        ret (mk (_data self) (meta self)
                (foldl (λ als source, dict_set source [] als) (alleles self)
                       (split_str "; " source_string))
                (warnings self))
    end
  else ret self.

(** The body of the loop over the sources named on an allele line.  The
    warning quotes [meta['identifier']], which [parse_meta] only ever
    stores as a string. *)
Definition assign_source (marker allele_str : string) (self : t) (source : string)
    : res t :=
  match dict_get source (alleles self) with
  | None =>
      let* identifier := getitem (meta self) "identifier" in
      ret (mk (_data self) (meta self) (alleles self)
              (warnings self ++
                 ["[CellosaurusDB] WARNING: Source '" +:+ source +:+
                  "' not defined for cell line " +:+
                  match identifier with VAtom (VStr s) => s | _ => EmptyString end]))
  | Some marker_alleles =>
      ret (mk (_data self) (meta self)
              (dict_set source (dict_set marker (strip allele_str) marker_alleles)
                        (alleles self))
              (warnings self))
  end.

Definition parse_alleles (self : t) (line : string) : res t :=
  if startswith line "ST" && negb (contains "Source" line)
     && negb (contains "Not_detected" line) then
    match match_alleles line with
    | None => raise (ValueError ("could not parse STR profile data: " +:+ line))
    | Some (marker, allele_str, None) =>
        ret (mk (_data self) (meta self)
                ((λ item, (item.1, dict_set marker (strip allele_str) item.2))
                   <$> alleles self)
                (warnings self))
    | Some (marker, allele_str, Some sources) =>
        let sources := remove_char ")" (remove_char "(" sources) in
        foldM (assign_source marker allele_str) self (split_str "; " sources)
    end
  else ret self.

(** [CellosaurusEntry(data)] *)
Definition init (data : list string) : res t :=
  foldM (λ self line,
           let* self := parse_meta self line in
           let* self := parse_sources self line in
           parse_alleles self line)
        (mk data [] [] []) data.

(** [len(v)] and [v[0]] on a metadata value. *)
Definition len (v : value) : res nat :=
  match v with
  | VList l => ret (length l)
  | VAtom (VStr s) => ret (String.length s)
  | VAtom (VInt _) => raise (TypeError "object of type 'int' has no len()")
  end.
Definition first (v : value) : res value :=
  match v with
  | VList (a :: _) => ret (VAtom a)
  | VList [] => raise (IndexError "list index out of range")
  | VAtom (VStr (String c _)) => ret (VAtom (VStr (String c EmptyString)))
  | VAtom (VStr EmptyString) => raise (IndexError "string index out of range")
  | VAtom (VInt _) => raise (TypeError "'int' object is not subscriptable")
  end.

(** One step of the generator [profiles]: the pair yielded for a source. *)
Definition profile_of (self : t) (item : string * list (string * string))
    : res (list (string * string) * list (string * value)) :=
  let metadata := meta self in
  let* taxid := getitem metadata "taxid" in
  let* n := len taxid in
  let* metadata :=
    if decide (n = 1%nat) then
      let* taxid0 := first taxid in
      let metadata := dict_set "taxid" taxid0 metadata in
      let* organism := getitem metadata "organism" in
      let* organism0 := first organism in
      ret (dict_set "organism" organism0 metadata)
    else ret metadata in
  ret (item.2, dict_set "source" (VAtom (VStr item.1)) metadata).

(** [profiles], as the list of the pairs yielded. *)
Definition profiles (self : t)
    : res (list (list (string * string) * list (string * value))) :=
  mapM (profile_of self) (alleles self).
End CellosaurusEntry.

(** [CellosaurusDB.parse_cellosaurus_into_blocks].  The first loop reads up
    to the first line that starts with ID; [last] is the variable [line]:
    unbound before the first line is read, and the last line read when the
    stream ends. *)
Fixpoint skip_to_ID (last : option string) (instream : list string)
    : option string * list string :=
  match instream with
  | [] => (last, [])
  | line :: rest =>
      if startswith line "ID" then (Some line, rest) else skip_to_ID (Some line) rest
  end.

(** The second loop: a block is yielded at each terminator line, and the
    terminator opens the next block. *)
Fixpoint read_blocks (block : list string) (instream : list string)
    : list (list string) :=
  match instream with
  | [] => []
  | line :: rest =>
      let line := strip line in
      if decide (line = "//") then block :: read_blocks [line] rest
      else read_blocks (block ++ [line]) rest
  end.

Definition parse_cellosaurus_into_blocks (instream : list string)
    : res (list (list string)) :=
  match skip_to_ID None instream with
  | (None, _) => raise (UnboundLocalError "line")
  | (Some line, rest) => ret (read_blocks [strip line] rest)
  end.

(** The inner loop of [parse_cellosaurus_records]: a profile is built from
    each pair as [profiles] yields it; the profiles are the objects [id],
    [id + 1], ... *)
Fixpoint entry_profiles (id : nat) (entry : CellosaurusEntry.t)
    (items : list (string * list (string * string))) : res (list Profile) :=
  match items with
  | [] => ret []
  | item :: items' =>
      let* am := CellosaurusEntry.profile_of entry item in
      let* p := Profile_init id am.1 am.2 in
      let* ps := entry_profiles (S id) entry items' in
      ret (p :: ps)
  end.

Fixpoint records_loop (id : nat) (blocks : list (list string)) : res (list Profile) :=
  match blocks with
  | [] => ret []
  | block :: blocks' =>
      let* entry := CellosaurusEntry.init block in
      let* ps := entry_profiles id entry (CellosaurusEntry.alleles entry) in
      let* more := records_loop (id + length ps) blocks' in
      ret (ps ++ more)
  end.

(** [CellosaurusDB.parse_cellosaurus_records], as the list of the profiles
    yielded when the generator is run to its end; the closing message reads
    the counter [n], which no block has set when there was none. *)
Definition parse_cellosaurus_records (id : nat) (instream : list string)
    : res (list Profile) :=
  let* blocks := parse_cellosaurus_into_blocks instream in
  let* ps := records_loop id blocks in
  match blocks with
  | [] => raise (UnboundLocalError "n")
  | _ => ret ps
  end.

(** ** Notions used in the statements *)

(** The taxid and the canonical name a raw name resolves to. *)
Definition taxid_of (name : string) : option Z := snd <$> standardize_name name.
Definition canonical_of (name : string) : option string := fst <$> standardize_name name.

(** The dict [valid] maps exactly the names seen, each to its resolution. *)
Definition valid_inv (seen : list string) (valid : list (string * option string)) : Prop :=
  NoDup (dict_keys valid) ∧
  (∀ k, k ∈ dict_keys valid ↔ k ∈ seen) ∧
  (∀ k v, (k, v) ∈ valid → v = canonical_of k).

(** A name is canonical for the species [t] when the registry lists it
    under [t]. *)
Definition canonical (t : Z) (m : string) : Prop :=
  ∃ names, (t, names) ∈ valid_names ∧ m ∈ names.

(** The invariant of constructed profiles. *)
Record Profile_wf (p : Profile) : Prop := {
  wf_nonempty : _alleles p ≠ [];
  wf_NoDup : NoDup (dict_keys (_alleles p));
  wf_canonical : ∀ m, m ∈ dict_keys (_alleles p) → canonical (taxid p) m;
  wf_alleles : ∀ m al, (m, al) ∈ _alleles p → ∃ s, al = parse_allele_string s
}.

(** Orders.  A pair (equality test, strict order test) is a strict weak
    order when the order is asymmetric, its complement is transitive, and
    the equality test holds exactly between incomparable elements. *)
Record swo {A} (eqb ltb : A → A → bool) : Prop := {
  swo_asym : ∀ x y, ltb x y = true → ltb y x = false;
  swo_le_trans : ∀ x y z, ltb y x = false → ltb z y = false → ltb z x = false;
  swo_eq : ∀ x y, eqb x y = true ↔ ltb x y = false ∧ ltb y x = false
}.

(** The lexicographic order of pairs, as Python compares tuples: the first
    component decides unless the two are equal. *)
Definition lex_eqb {A B} (eqA : A → A → bool) (eqB : B → B → bool)
    (a b : A * B) : bool :=
  eqA a.1 b.1 && eqB a.2 b.2.
Definition lex_ltb {A B} (eqA ltA : A → A → bool) (ltB : B → B → bool)
    (a b : A * B) : bool :=
  if negb (eqA a.1 b.1) then ltA a.1 b.1 else ltB a.2 b.2.

(** The lexicographic order of slugs of strings, and of the keys
    [(score, shared_alleles, slug)]. *)
Definition slug_eqb : string * string * string → string * string * string → bool :=
  lex_eqb (lex_eqb String.eqb String.eqb) String.eqb.
Definition slug_ltb : string * string * string → string * string * string → bool :=
  lex_ltb (lex_eqb String.eqb String.eqb) (lex_ltb String.eqb String.ltb String.ltb)
    String.ltb.
Definition key_ltb (a b : Q * (nat * (string * string * string))) : bool :=
  lex_ltb Qeq_bool Qltb (lex_ltb Nat.eqb Nat.ltb slug_ltb) a b.

(** The sort key of a cell line: its top score, and the greatest number of
    shared alleles among its results with that score. *)
Definition top_score_of (r : CellLineResult.t) : Q :=
  match ProfileResult.score <$> r with
  | [] => 0
  | x :: l => max_from Qltb x l
  end.
Definition top_shared_of (r : CellLineResult.t) : nat :=
  match ProfileResult.shared_alleles <$>
          filter (λ x, Qeq_bool (ProfileResult.score x) (top_score_of r) = true) r with
  | [] => 0%nat
  | x :: l => max_from Nat.ltb x l
  end.
Definition search_key (r : CellLineResult.t) : Q * nat :=
  (top_score_of r, top_shared_of r).

(** The cell lines of a dict in the order [ids_by_score] ranks them. *)
Definition ranked_results (d : list (value * list ProfileResult.t))
    : list (list ProfileResult.t) :=
  snd <$> sorted_reverse (λ a b, SearchResult.key_lt a.1 b.1)
            ((λ r, (search_key r, r)) <$> dict_values d).

(** The invariant of the dict of a [SearchResult]: every cell line holds at
    least one result, and the results it holds carry its identifier. *)
Definition results_wf (d : list (value * CellLineResult.t)) : Prop :=
  NoDup (dict_keys d) ∧
  ∀ k r, (k, r) ∈ d →
    r ≠ [] ∧ hashable k = true ∧
    ∀ x, x ∈ r → Profile_identifier (ProfileResult.reference x) = inr k.


(** The key (score, shared_alleles, slug) of a result, for references whose
    identifier, accession and source are strings. *)
Definition str_of (v : res value) : string :=
  match v with
  | inr (VAtom (VStr s)) => s
  | _ => EmptyString
  end.
Definition slug_strings (p : Profile) : string * string * string :=
  (str_of (Profile_identifier p), str_of (getitem (_meta p) "accession"),
   str_of (Profile_source p)).
Definition slug_value (s : string * string * string) : value * value * value :=
  (VAtom (VStr s.1.1), VAtom (VStr s.1.2), VAtom (VStr s.2)).
Definition string_slug (p : Profile) : Prop :=
  Profile_slug p = inr (slug_value (slug_strings p)).
Definition result_key (r : ProfileResult.t) : Q * (nat * (string * string * string)) :=
  (ProfileResult.score r,
   (ProfileResult.shared_alleles r, slug_strings (ProfileResult.reference r))).

(** The results of one cell line in a search: one hashable sample, one
    identifier, string slugs, and one object per identity. *)
Definition cell_line_wf (sample : value) (identifier : string)
    (self : CellLineResult.t) : Prop :=
  self ≠ [] ∧ hashable sample = true ∧
  (∀ a, a ∈ self →
     ProfileResult.sample a = sample ∧
     string_slug (ProfileResult.reference a) ∧
     (slug_strings (ProfileResult.reference a)).1.1 = identifier) ∧
  (∀ a b, a ∈ self → b ∈ self →
     py_id (ProfileResult.reference a) = py_id (ProfileResult.reference b) →
     ProfileResult.reference a = ProfileResult.reference b).

(** The invariant of the metadata of an entry being parsed: the keys are
    the five attribute names, the first three hold strings, [taxid] holds
    a list of integers and [organism] a list of strings of the same
    length, and the two lists come together. *)
Definition entry_value_wf (k : string) (v : value) : Prop :=
  (k ∈ ["identifier"; "accession"; "synonyms"] ∧ ∃ s, v = VAtom (VStr s)) ∨
  (k = "taxid" ∧ ∃ l, v = VList (VInt <$> l)) ∨
  (k = "organism" ∧ ∃ l, v = VList (VStr <$> l)).
Definition entry_meta_wf (meta : list (string * value)) : Prop :=
  NoDup (dict_keys meta) ∧
  (∀ k v, (k, v) ∈ meta → entry_value_wf k v) ∧
  match dict_get "taxid" meta, dict_get "organism" meta with
  | None, None => True
  | Some (VList taxids), Some (VList organisms) => length taxids = length organisms
  | _, _ => False
  end.

(** An exception is an assertion failure. *)
Definition is_AssertionError (e : exn) : bool :=
  match e with AssertionError _ => true | _ => false end.

(** ** Example data *)

(** Profiles as [Profile] builds them from small allele tables. *)
Definition ex_th01 : Profile :=
  mkProfile 1 [] 9606 [("TH01", {[ "6" ]})].
Definition ex_th01_het : Profile :=
  mkProfile 2 [] 9606 [("TH01", {[ "6"; "9.3" ]})].
Definition ex_th01_tpox : Profile :=
  mkProfile 3 [] 9606 [("TH01", {[ "6" ]}); ("TPOX", {[ "8" ]})].
Definition ex_amel : Profile :=
  mkProfile 4 [] 9606 [("Amelogenin", {[ "X" ]})].

(** Reference profiles of two cell lines, and the results of one query
    against them. *)
Definition ex_reference (id : nat) (identifier source : string) : Profile :=
  mkProfile id
    [("identifier", VAtom (VStr identifier)); ("accession", VAtom (VStr "CVCL_0000"));
     ("source", VAtom (VStr source))]
    9606 [("TH01", {[ "6" ]})].
Definition ex_results : list ProfileResult.t :=
  [ ProfileResult.mk (VAtom (VStr "query")) (1 # 2) 3 (ex_reference 10 "A" "ATCC");
    ProfileResult.mk (VAtom (VStr "query")) (9 # 10) 5 (ex_reference 11 "B" "ATCC");
    ProfileResult.mk (VAtom (VStr "query")) (3 # 4) 4 (ex_reference 12 "A" "DSMZ") ].

(** The search result holding [ex_results], with threshold 3/5 and at most
    one hit. *)
Definition ex_query : Profile :=
  mkProfile 5 [("sample", VAtom (VStr "query"))] 9606 [("TH01", {[ "6" ]})].
Definition ex_search : SearchResult.t :=
  SearchResult.mk ex_query (3 # 5) 1
    [ (VAtom (VStr "A"),
        [ ProfileResult.mk (VAtom (VStr "query")) (1 # 2) 3 (ex_reference 10 "A" "ATCC");
          ProfileResult.mk (VAtom (VStr "query")) (3 # 4) 4 (ex_reference 12 "A" "DSMZ") ]);
      (VAtom (VStr "B"),
        [ ProfileResult.mk (VAtom (VStr "query")) (9 # 10) 5 (ex_reference 11 "B" "ATCC") ]) ].

(** The results of cell line A in [ex_search]. *)
Definition ex_cell_line : CellLineResult.t :=
  [ ProfileResult.mk (VAtom (VStr "query")) (1 # 2) 3 (ex_reference 10 "A" "ATCC");
    ProfileResult.mk (VAtom (VStr "query")) (3 # 4) 4 (ex_reference 12 "A" "DSMZ") ].

(** ** Lemmas on dictionaries *)

Section dict_lemmas.
Context {K V : Type} `{EqDecision K}.
Implicit Types (d : list (K * V)) (k : K) (v : V).

Lemma dict_get_set_eq k v d : dict_get k (dict_set k v d) = Some v.
Proof.
  induction d as [|[k' v'] d IH]; csimpl.
  - by rewrite decide_True.
  - destruct (decide (k = k')) as [->|Hne]; csimpl.
    + by rewrite decide_True.
    + by rewrite decide_False.
Qed.

Lemma dict_get_set_ne k k' v d : k ≠ k' → dict_get k' (dict_set k v d) = dict_get k' d.
Proof.
  intros Hne. induction d as [|[k0 v0] d IH]; csimpl.
  - by rewrite decide_False.
  - destruct (decide (k = k0)) as [->|Hne0]; csimpl.
    + rewrite !decide_False; done.
    + destruct (decide (k' = k0)); done.
Qed.

Lemma dict_set_keys k v d :
  dict_keys (dict_set k v d) = if bool_decide (k ∈ dict_keys d) then dict_keys d else dict_keys d ++ [k].
Proof.
  unfold dict_keys. induction d as [|[k0 v0] d IH]; csimpl; [done|].
  destruct (decide (k = k0)) as [->|Hne]; csimpl.
  - rewrite bool_decide_eq_true_2; [done | left].
  - rewrite IH. destruct (bool_decide_reflect (k ∈ d.*1)) as [Hin|Hnin].
    + rewrite bool_decide_eq_true_2; [done | by right].
    + rewrite bool_decide_eq_false_2; [done |]. rewrite elem_of_cons. tauto.
Qed.

Lemma dict_set_NoDup k v d : NoDup (dict_keys d) → NoDup (dict_keys (dict_set k v d)).
Proof.
  intros Hnd. rewrite dict_set_keys. case_bool_decide; [done|].
  apply NoDup_app. split_and!; [done| |apply NoDup_singleton].
  intros x Hx Hx'. apply list_elem_of_singleton in Hx'. by subst.
Qed.

Lemma dict_get_Some_elem k v d : dict_get k d = Some v → (k, v) ∈ d.
Proof.
  induction d as [|[k0 v0] d IH]; csimpl; [done|].
  destruct (decide (k = k0)) as [->|Hne].
  - intros [= ->]. left.
  - intros. right. auto.
Qed.

Lemma dict_get_None_keys k d : dict_get k d = None ↔ k ∉ dict_keys d.
Proof.
  unfold dict_keys. induction d as [|[k0 v0] d IH]; csimpl.
  - split; [intros _; apply not_elem_of_nil | done].
  - rewrite not_elem_of_cons. destruct (decide (k = k0)) as [->|Hne]; [split; [done | tauto] | ].
    rewrite IH. tauto.
Qed.

Lemma dict_elem_get k v d : NoDup (dict_keys d) → (k, v) ∈ d → dict_get k d = Some v.
Proof.
  unfold dict_keys. induction d as [|[k0 v0] d IH]; csimpl.
  - intros _ Hin. by apply elem_of_nil in Hin.
  - intros Hnd Hin. apply NoDup_cons in Hnd as [Hk0 Hnd].
    apply elem_of_cons in Hin as [[= -> ->]|Hin].
    + by rewrite decide_True.
    + destruct (decide (k = k0)) as [->|Hne]; [|by apply IH].
      exfalso. apply Hk0. apply list_elem_of_fmap. by exists (k0, v).
Qed.
End dict_lemmas.

(** ** Lemmas on sorting *)

Section sorting_lemmas.
Context {A : Type} (lt : A → A → bool).

Lemma insert_sorted_Permutation x l : insert_sorted lt x l ≡ₚ x :: l.
Proof.
  induction l as [|y l IH]; simpl; [done|].
  destruct (lt y x); [|done].
  rewrite IH. apply Permutation_swap.
Qed.

Lemma sorted_Permutation l : sorted lt l ≡ₚ l.
Proof.
  induction l as [|x l IH]; simpl; [done|].
  by rewrite insert_sorted_Permutation, IH.
Qed.

Lemma elem_of_sorted x l : x ∈ sorted lt l ↔ x ∈ l.
Proof. by rewrite sorted_Permutation. Qed.

Lemma sorted_reverse_Permutation l : sorted_reverse lt l ≡ₚ l.
Proof.
  unfold sorted_reverse.
  by rewrite reverse_Permutation, sorted_Permutation, reverse_Permutation.
Qed.
End sorting_lemmas.

(** ** markers.py: resolution of names *)

Lemma find_species_name_elem c l n : find_species_name c l = Some n → n ∈ l ∧ c = normalize n.
Proof.
  induction l as [|x l IH]; simpl; [done|].
  destruct (decide (c = normalize x)) as [->|Hne].
  - intros [= ->]. split; [left | done].
  - intros H. destruct (IH H) as [? ?]. split; [by right | done].
Qed.

Lemma find_in_table_elem c table n t :
  find_in_table c table = Some (n, t) →
  ∃ names, (t, names) ∈ table ∧ n ∈ names ∧ c = normalize n.
Proof.
  induction table as [|[t0 names0] table IH]; simpl; [done|].
  destruct (find_species_name c names0) as [n0|] eqn:Hf.
  - intros [= -> ->]. apply find_species_name_elem in Hf as [? ?].
    exists names0. split_and!; [left | done | done].
  - intros H. destruct (IH H) as (names & ? & ? & ?).
    exists names. split_and!; [by right | done | done].
Qed.

(** A resolved name is a name of the registry, listed under its taxid. *)
Lemma standardize_name_registry name n t :
  standardize_name name = Some (n, t) →
  ∃ names, (t, names) ∈ valid_names ∧ n ∈ names.
Proof.
  intros H. apply find_in_table_elem in H as (names & ? & ? & ?). eauto.
Qed.

(** Every taxid of the registry has a species name. *)
Lemma registry_species t names :
  (t, names) ∈ valid_names → is_Some (dict_get t species_by_taxid).
Proof.
  unfold valid_names. rewrite !elem_of_cons, elem_of_nil.
  intros [[= -> _]|[[= -> _]|[[= -> _]|[]]]]; vm_compute; eauto.
Qed.

(** The loop of [validate_names]. *)
Lemma validate_loop_taxids_gen st names :
  (foldl validate_step st names).1 = list_to_set (taxid_of <$> names) ∪ st.1.
Proof.
  revert st. induction names as [|n names IH]; intros st; csimpl.
  - set_solver.
  - rewrite IH.
    change ((validate_step st n).1) with ({[ taxid_of n ]} ∪ st.1).
    set_solver.
Qed.

Lemma validate_loop_taxids names :
  (validate_loop names).1 = list_to_set (taxid_of <$> names).
Proof. unfold validate_loop. rewrite validate_loop_taxids_gen. set_solver. Qed.

Lemma valid_inv_step seen valid taxids n :
  valid_inv seen valid →
  valid_inv (seen ++ [n]) (validate_step (taxids, valid) n).2.
Proof.
  intros (Hnd & Hkeys & Hval). unfold validate_step; simpl.
  fold (canonical_of n). split_and!.
  - by apply dict_set_NoDup.
  - intros k. rewrite dict_set_keys, elem_of_app, list_elem_of_singleton.
    case_bool_decide as Hn.
    + rewrite Hkeys. split; [tauto|]. intros [?| ->]; [done | by apply Hkeys].
    + rewrite elem_of_app, list_elem_of_singleton, Hkeys. done.
  - intros k v Hin. destruct (decide (k = n)) as [->|Hne].
    + assert (dict_get n (dict_set n (canonical_of n) valid) = Some v) as Hg.
      { apply dict_elem_get; [by apply dict_set_NoDup | done]. }
      rewrite dict_get_set_eq in Hg. congruence.
    + apply Hval.
      assert (dict_get k (dict_set n (canonical_of n) valid) = Some v) as Hg.
      { apply dict_elem_get; [by apply dict_set_NoDup | done]. }
      rewrite dict_get_set_ne in Hg by done. by apply dict_get_Some_elem.
Qed.

Lemma validate_loop_valid_gen names seen st :
  valid_inv seen st.2 → valid_inv (seen ++ names) (foldl validate_step st names).2.
Proof.
  revert seen st. induction names as [|n names IH]; intros seen [taxids valid] Hinv; simpl.
  - by rewrite app_nil_r.
  - replace (seen ++ n :: names) with ((seen ++ [n]) ++ names) by by rewrite <-app_assoc.
    apply IH. destruct (validate_step (taxids, valid) n) as [t' v'] eqn:Hs.
    simpl. replace v' with (validate_step (taxids, valid) n).2 by by rewrite Hs.
    by apply valid_inv_step.
Qed.

Lemma validate_loop_valid names : valid_inv names (validate_loop names).2.
Proof.
  apply (validate_loop_valid_gen names [] (∅, [])).
  split_and!; [constructor | done | ].
  intros k v Hin. by apply elem_of_nil in Hin.
Qed.

Lemma validate_loop_get names n :
  n ∈ names → dict_get n (validate_loop names).2 = Some (canonical_of n).
Proof.
  intros Hn. destruct (validate_loop_valid names) as (Hnd & Hkeys & Hval).
  apply Hkeys in Hn. unfold dict_keys in Hn.
  apply list_elem_of_fmap in Hn as ([k v] & -> & Hin). simpl.
  rewrite (Hval _ _ Hin) in Hin. by apply dict_elem_get.
Qed.

Lemma invalid_names_spec names n :
  n ∈ invalid_names (validate_loop names).2 ↔ n ∈ names ∧ standardize_name n = None.
Proof.
  destruct (validate_loop_valid names) as (Hnd & Hkeys & Hval).
  unfold invalid_names. rewrite list_elem_of_fmap. split.
  - intros ([k v] & -> & Hin). apply list_elem_of_filter in Hin as [Hv Hin].
    simpl in *. subst v. split.
    + apply Hkeys. apply list_elem_of_fmap. by exists (k, None).
    + apply Hval in Hin. unfold canonical_of in Hin.
      by destruct (standardize_name k).
  - intros [Hn Hnone]. exists (n, None). split; [done|].
    apply list_elem_of_filter. split; [done|].
    apply dict_get_Some_elem. rewrite (validate_loop_get _ _ Hn).
    unfold canonical_of. by rewrite Hnone.
Qed.

Lemma invalid_names_NoDup names : NoDup (invalid_names (validate_loop names).2).
Proof.
  destruct (validate_loop_valid names) as (Hnd & _ & _).
  unfold invalid_names. revert Hnd. unfold dict_keys.
  generalize (validate_loop names).2. intros d.
  induction d as [|[k v] d IH]; csimpl; [constructor|].
  rewrite NoDup_cons. intros [Hk Hnd].
  rewrite filter_cons. case_decide; csimpl; [|by apply IH].
  apply NoDup_cons. split; [|by apply IH].
  intros Hin. apply Hk. apply list_elem_of_fmap in Hin as (kv & -> & Hin).
  apply list_elem_of_filter in Hin as [_ Hin].
  apply list_elem_of_fmap. by exists kv.
Qed.

Lemma dict_get_resolved_names (valid : list (string * option string)) k :
  NoDup (dict_keys valid) →
  dict_get k (resolved_names valid) = mjoin (dict_get k valid).
Proof.
  unfold resolved_names, dict_keys.
  induction valid as [|[k0 v0] d IH]; csimpl; [done|].
  rewrite NoDup_cons. intros [Hk0 Hnd].
  destruct v0 as [c|]; csimpl.
  - destruct (decide (k = k0)); [done | by apply IH].
  - rewrite IH by done. destruct (decide (k = k0)) as [->|]; [|done].
    apply dict_get_None_keys in Hk0. by rewrite Hk0.
Qed.

Lemma none_in_taxids names :
  None ∈ (validate_loop names).1 ↔ ∃ n, n ∈ names ∧ standardize_name n = None.
Proof.
  rewrite validate_loop_taxids, elem_of_list_to_set, list_elem_of_fmap.
  unfold taxid_of. split.
  - intros (n & Hn & Hin). exists n. split; [done|].
    by destruct (standardize_name n).
  - intros (n & Hin & Hn). exists n. by rewrite Hn.
Qed.

Lemma size_two `{Countable T} (X : gset T) x y : x ∈ X → y ∈ X → x ≠ y → (1 < size X)%nat.
Proof.
  intros Hx Hy Hne.
  assert (size ({[x; y]} : gset T) ≤ size X)%nat as Hle by (apply subseteq_size; set_solver).
  rewrite size_union, !size_singleton in Hle by set_solver. lia.
Qed.

Lemma mapM_inr {A B} (f : A → res B) (l : list A) :
  (∀ x, x ∈ l → ∃ y, f x = inr y) →
  ∃ ys, mapM f l = inr ys ∧ Forall2 (λ x y, f x = inr y) l ys.
Proof.
  induction l as [|x l IH]; intros Hf; simpl.
  - exists []. split; [done | constructor].
  - destruct (Hf x) as [y Hy]; [left|].
    destruct IH as (ys & Hys & HF); [intros; apply Hf; by right|].
    exists (y :: ys). rewrite Hy, Hys. split; [done | by constructor].
Qed.

(** The species names gathered for the error message are those of the
    taxids met. *)
Lemma species_of_taxids (taxids : gset (option Z)) :
  None ∉ taxids →
  (∀ t, Some t ∈ taxids → is_Some (dict_get t species_by_taxid)) →
  ∃ species, species_of (elements taxids) = inr species ∧
    ∀ sp, sp ∈ species ↔ ∃ t, Some t ∈ taxids ∧ dict_get t species_by_taxid = Some sp.
Proof.
  intros Hnone Hsome.
  destruct (mapM_inr (λ t : option Z, match t with
             | Some taxid =>
                 match dict_get taxid species_by_taxid with
                 | Some sp => ret sp
                 | None => raise (KeyError "taxid")
                 end
             | None => raise (KeyError "None")
             end) (elements taxids)) as (species & Hsp & HF).
  { intros [t|] Hin%elem_of_elements; [|done].
    destruct (Hsome t Hin) as [sp ->]. by exists sp. }
  exists species. split; [exact Hsp|].
  intros sp. split.
  - intros Hin. apply list_elem_of_lookup in Hin as [i Hi].
    destruct (Forall2_lookup_r _ _ _ _ _ HF Hi) as ([t|] & Ht & Hf); [|done].
    exists t. split; [apply elem_of_elements; by eapply list_elem_of_lookup_2|].
    destruct (dict_get t species_by_taxid); [|done]. by injection Hf as ->.
  - intros (t & Hin & Hsp'). apply elem_of_elements, list_elem_of_lookup in Hin as [i Hi].
    destruct (Forall2_lookup_l _ _ _ _ _ HF Hi) as (y & Hy & Hf).
    rewrite Hsp' in Hf. injection Hf as <-. by eapply list_elem_of_lookup_2.
Qed.

(** C9 (as stated, refuted): the empty iterable has no unresolvable name and
    spans no two species, yet [validate_names] does not return: popping the
    empty set of taxids raises [KeyError]. *)
Lemma validate_names_empty_raises :
  (∀ n, n ∈ ([] : list string) → is_Some (standardize_name n)) ∧
  (∀ n1 n2, n1 ∈ ([] : list string) → n2 ∈ ([] : list string) → taxid_of n1 = taxid_of n2) ∧
  validate_names [] = inl (KeyError "pop from an empty set") ∧
  ¬ ∃ mapping t, validate_names [] = inr (mapping, t).
Proof.
  split_and!.
  - intros n Hn. by apply elem_of_nil in Hn.
  - intros n1 n2 Hn. by apply elem_of_nil in Hn.
  - by vm_compute.
  - intros (mapping & t & H). by vm_compute in H.
Qed.

(** Names that all resolve to one species give the mapping and its taxid. *)
Lemma validate_names_single_species (names : list string) t :
  names ≠ [] →
  (∀ n, n ∈ names → taxid_of n = Some t) →
  ∃ mapping,
    validate_names names = inr (mapping, t) ∧
    (∀ n, n ∈ dict_keys mapping ↔ n ∈ names) ∧
    ∀ n, n ∈ names →
      ∃ c, standardize_name n = Some (c, t) ∧ dict_get n mapping = Some c.
Proof.
  intros Hne Hall. unfold validate_names.
  pose proof (none_in_taxids names) as Hnone.
  pose proof (validate_loop_taxids names) as Htax.
  destruct (validate_loop names) as [taxids valid] eqn:Hloop. simpl in *.
  assert (taxids = {[ Some t ]}) as ->.
  { rewrite Htax. apply set_eq. intros x.
    rewrite elem_of_list_to_set, list_elem_of_fmap, elem_of_singleton. split.
    - intros (n & -> & Hn). by apply Hall.
    - intros ->. destruct names as [|n names]; [done|].
      exists n. split; [symmetry; apply Hall; left | left]. }
  rewrite bool_decide_eq_false_2 by set_solver.
  rewrite bool_decide_eq_false_2 by (rewrite size_singleton; lia).
  unfold set_pop, resolved_taxids. rewrite elements_singleton. simpl.
  destruct (validate_loop_valid names) as (Hnd & Hkeys & Hval).
  rewrite Hloop in Hnd, Hkeys, Hval. simpl in *.
  assert (∀ n, n ∈ names → ∃ c, standardize_name n = Some (c, t) ∧
            dict_get n (resolved_names valid) = Some c) as Hget.
  { intros n Hn. specialize (Hall n Hn). unfold taxid_of in Hall.
    destruct (standardize_name n) as [[c t']|] eqn:Hs; [|done].
    injection Hall as ->. exists c. split; [done|].
    rewrite dict_get_resolved_names by done.
    pose proof (validate_loop_get names n Hn) as Hg. rewrite Hloop in Hg.
    simpl in Hg. rewrite Hg. unfold canonical_of. by rewrite Hs. }
  exists (resolved_names valid). split_and!; [done| |done].
  intros n. split.
  + intros Hin. apply Hkeys. unfold dict_keys, resolved_names in *.
    apply list_elem_of_fmap in Hin as ([k c] & -> & Hin).
    apply list_elem_of_omap in Hin as ([k' v'] & Hin & Heq). simpl in *.
    destruct v'; [|done]. injection Heq as -> ->.
    apply list_elem_of_fmap. by exists (k, Some c).
  + intros Hn. destruct (Hget n Hn) as (c & _ & Hg).
    apply dict_get_Some_elem in Hg. apply list_elem_of_fmap. by exists (n, c).
Qed.

(** C9 (amended): for every non-empty iterable of marker names,
    (1) if some name is unresolvable, [validate_names] raises the error
        whose message lists every unresolvable raw name, each once;
    (2) if all names resolve but to more than one species, it raises the
        error whose message names the species of every name;
    (3) if all names resolve to the one species [t], it returns the mapping
        from each raw name to its canonical name, together with [t]. *)
Theorem validate_names_outcome (names : list string) :
  names ≠ [] →
  ((∃ n, n ∈ names ∧ standardize_name n = None) →
     ∃ listed,
       validate_names names =
         inl (ValueError ("invalid marker name(s): " +:+ join ", " listed)) ∧
       NoDup listed ∧
       ∀ n, n ∈ listed ↔ n ∈ names ∧ standardize_name n = None) ∧
  ((∀ n, n ∈ names → is_Some (standardize_name n)) →
   (∃ n1 n2, n1 ∈ names ∧ n2 ∈ names ∧ taxid_of n1 ≠ taxid_of n2) →
     ∃ species,
       validate_names names =
         inl (ValueError
           ("list of marker names includes markers from different species: "
             +:+ join ", " species)) ∧
       ∀ sp, sp ∈ species ↔
         ∃ n t, n ∈ names ∧ taxid_of n = Some t ∧
                dict_get t species_by_taxid = Some sp) ∧
  (∀ t, (∀ n, n ∈ names → taxid_of n = Some t) →
     ∃ mapping,
       validate_names names = inr (mapping, t) ∧
       (∀ n, n ∈ dict_keys mapping ↔ n ∈ names) ∧
       ∀ n, n ∈ names →
         ∃ c, standardize_name n = Some (c, t) ∧ dict_get n mapping = Some c).
Proof.
  intros Hne. split; [|split].
  3: { intros t Hall. by apply validate_names_single_species. }
  all: unfold validate_names;
    pose proof (none_in_taxids names) as Hnone;
    pose proof (validate_loop_taxids names) as Htax;
    destruct (validate_loop names) as [taxids valid] eqn:Hloop; simpl in *.
  - intros Hex. rewrite bool_decide_eq_true_2 by by apply Hnone.
    exists (invalid_names valid). split; [done|].
    replace valid with (validate_loop names).2 by by rewrite Hloop.
    split; [apply invalid_names_NoDup | apply invalid_names_spec].
  - intros Hall (n1 & n2 & Hn1 & Hn2 & Hdiff).
    assert (None ∉ taxids) as Hnn.
    { rewrite Hnone. intros (n & Hn & Hnone'). destruct (Hall n Hn) as [? ?]. congruence. }
    rewrite bool_decide_eq_false_2 by done.
    rewrite bool_decide_eq_true_2; cycle 1.
    { apply (size_two _ (taxid_of n1) (taxid_of n2)); [| |done];
        rewrite Htax, elem_of_list_to_set, list_elem_of_fmap; eauto. }
    destruct (species_of_taxids taxids Hnn) as (species & -> & Hsp).
    { intros t. rewrite Htax, elem_of_list_to_set, list_elem_of_fmap.
      intros (n & Ht & Hn). unfold taxid_of in Ht.
      destruct (standardize_name n) as [[c t']|] eqn:Hs; [|done].
      injection Ht as ->.
      destruct (standardize_name_registry _ _ _ Hs) as (l & Hl & _).
      by eapply registry_species. }
    simpl. exists (sorted String.ltb species). split; [done|].
    intros sp. rewrite elem_of_sorted, Hsp. split.
    + intros (t & Ht & Hd). rewrite Htax, elem_of_list_to_set, list_elem_of_fmap in Ht.
      destruct Ht as (n & Ht & Hn). eauto.
    + intros (n & t & Hn & Ht & Hd). exists t. split; [|done].
      rewrite Htax, elem_of_list_to_set, list_elem_of_fmap. eauto.
Qed.

(** A run of case (3) of [validate_names_outcome]. *)
Lemma validate_names_outcome_witness :
  ["vWA"; "th01"] ≠ [] ∧
  (∀ n, n ∈ ["vWA"; "th01"] → taxid_of n = Some 9606%Z) ∧
  ∃ mapping, validate_names ["vWA"; "th01"] = inr (mapping, 9606%Z) ∧
    (∀ n, n ∈ dict_keys mapping ↔ n ∈ ["vWA"; "th01"]) ∧
    ∀ n, n ∈ ["vWA"; "th01"] →
      ∃ c, standardize_name n = Some (c, 9606%Z) ∧ dict_get n mapping = Some c.
Proof.
  assert (∀ n, n ∈ ["vWA"; "th01"] → taxid_of n = Some 9606%Z) as Hall.
  { intros n. rewrite !elem_of_cons, elem_of_nil.
    intros [->|[->|[]]]; by vm_compute. }
  split_and!; [done | exact Hall |].
  exact (proj2 (proj2 (validate_names_outcome ["vWA"; "th01"] ltac:(done)))
           9606%Z Hall).
Defined.

(** ** Profile construction *)

(** [validate_names] returns only on a non-empty list of names that all
    resolve to one species. *)
Lemma validate_names_inr names mapping t :
  validate_names names = inr (mapping, t) →
  names ≠ [] ∧ (∀ n, n ∈ names → taxid_of n = Some t) ∧
  mapping = resolved_names (validate_loop names).2.
Proof.
  unfold validate_names.
  pose proof (validate_loop_taxids names) as Htax.
  destruct (validate_loop names) as [taxids valid] eqn:Hloop. simpl in *.
  case_bool_decide as Hnone; [done|].
  case_bool_decide as Hsize; [by destruct (species_of _)|].
  unfold set_pop, resolved_taxids.
  destruct (omap id (elements taxids)) as [|t' ts] eqn:Hel; simpl; [done|].
  intros [= <- ->].
  assert (Some t ∈ taxids) as Ht.
  { apply elem_of_elements. assert (t ∈ omap id (elements taxids)) as Hin
      by (rewrite Hel; left).
    apply list_elem_of_omap in Hin as ([x|] & Hin & Hx); [|done].
    simpl in Hx. by injection Hx as ->. }
  assert (∀ x, x ∈ taxids → x = Some t) as Hall.
  { intros x Hx. destruct (decide (x = Some t)) as [|Hne]; [done|].
    exfalso. apply Hsize. by apply (size_two _ x (Some t)). }
  split_and!; [|intros n Hn; apply Hall|done].
  - intros ->. rewrite Htax in Ht. set_solver.
  - rewrite Htax, elem_of_list_to_set, list_elem_of_fmap. eauto.
Qed.

(** What the loop of [Profile.__init__] builds. *)
Lemma init_loop_inv valid items acc als :
  foldM (init_step valid) acc items = inr als →
  (NoDup (dict_keys acc) → NoDup (dict_keys als)) ∧
  (acc ≠ [] ∨ items ≠ [] → als ≠ []) ∧
  (∀ m al, (m, al) ∈ als →
     (m, al) ∈ acc ∨
     ∃ item, item ∈ items ∧ dict_get item.1 valid = Some m ∧
             al = parse_allele_string item.2).
Proof.
  revert acc. induction items as [|item items IH]; intros acc; simpl.
  - intros [= ->]. split_and!; [done | intros [?|?]; done | auto].
  - unfold init_step at 1.
    destruct (dict_get item.1 valid) as [m0|] eqn:Hg; simpl; [|done].
    intros H. destruct (IH _ H) as (Hnd & Hne & Hin). split_and!.
    + intros Hacc. by apply Hnd, dict_set_NoDup.
    + intros _. apply Hne. left. by destruct acc as [|[? ?] ?]; simpl; [|case_decide].
    + intros m al Hm. destruct (Hin m al Hm) as [Hset|(it & Hit & Hgi & Hal)].
      * destruct (decide (m = m0)) as [->|Hneq].
        -- destruct (decide (al = parse_allele_string item.2)) as [->|Hneq'].
           ++ right. exists item. split_and!; [left | done | done].
           ++ left. clear -Hset Hneq'. induction acc as [|[k v] acc IHa]; simpl in *.
              ** apply list_elem_of_singleton in Hset. congruence.
              ** destruct (decide (m0 = k)) as [->|Hne].
                 --- apply elem_of_cons in Hset as [[= ->]|Hset]; [done | by right].
                 --- apply elem_of_cons in Hset as [->|Hset]; [left | right; auto].
        -- left. clear -Hset Hneq. induction acc as [|[k v] acc IHa]; simpl in *.
           ++ apply list_elem_of_singleton in Hset. congruence.
           ++ destruct (decide (m0 = k)) as [->|Hne].
              ** apply elem_of_cons in Hset as [[= -> ->]|Hset]; [done | by right].
              ** apply elem_of_cons in Hset as [->|Hset]; [left | right; auto].
      * right. exists it. split_and!; [by right | done | done].
Qed.

Lemma split_chars_nonempty c cur l : split_chars c cur l ≠ [].
Proof. revert cur. induction l as [|x l IH]; intros cur; simpl; [done|]. by case_decide. Qed.

Lemma parse_allele_string_nonempty s : parse_allele_string s ≠ ∅.
Proof.
  unfold parse_allele_string, split.
  pose proof (split_chars_nonempty "," [] (chars (remove_char " " s))) as Hne.
  destruct (split_chars _ _ _) as [|x l]; [done|]. set_solver.
Qed.

Lemma Profile_init_wf id alleles meta p :
  Profile_init id alleles meta = inr p → Profile_wf p.
Proof.
  unfold Profile_init.
  destruct (validate_names (dict_keys alleles)) as [e|[mapping t]] eqn:Hv; simpl; [done|].
  destruct (foldM (init_step mapping) [] alleles) as [e|als] eqn:Hf; simpl; [done|].
  intros [= <-]. apply validate_names_inr in Hv as (Hne & Hall & ->).
  destruct (init_loop_inv _ _ _ _ Hf) as (Hnd & Hnonempty & Hin).
  split; simpl.
  - apply Hnonempty. right. by destruct alleles.
  - apply Hnd. constructor.
  - intros m Hm. apply list_elem_of_fmap in Hm as ([m' al] & -> & Hm). simpl.
    destruct (Hin _ _ Hm) as [Hnil|([raw s] & Hit & Hg & _)]; [by apply elem_of_nil in Hnil|].
    simpl in Hg.
    assert (raw ∈ dict_keys alleles) as Hraw.
    { apply list_elem_of_fmap. by exists (raw, s). }
    rewrite dict_get_resolved_names in Hg by apply validate_loop_valid.
    rewrite (validate_loop_get _ _ Hraw) in Hg. simpl in Hg.
    specialize (Hall raw Hraw). unfold canonical_of, taxid_of in *.
    destruct (standardize_name raw) as [[c t']|] eqn:Hs; [|done].
    simpl in *. injection Hg as ->. injection Hall as ->.
    by eapply standardize_name_registry.
  - intros m al Hm.
    destruct (Hin _ _ Hm) as [Hnil|(item & _ & _ & ->)]; [by apply elem_of_nil in Hnil|].
    eauto.
Qed.

(** Resolution is idempotent on the registry: a listed name resolves to
    itself, under the taxid that lists it. *)
Lemma registry_idempotent t names m :
  (t, names) ∈ valid_names → m ∈ names → standardize_name m = Some (m, t).
Proof.
  assert (Forall (λ tn : Z * list string,
            Forall (λ m, standardize_name m = Some (m, tn.1)) tn.2) valid_names) as H.
  { apply (bool_decide_unpack _). by vm_compute. }
  intros Hin Hm. rewrite Forall_forall in H. specialize (H _ Hin).
  rewrite Forall_forall in H. by apply H.
Qed.

Lemma elem_of_markers p m : m ∈ markers p ↔ m ∈ dict_keys (_alleles p).
Proof. unfold markers. by rewrite elem_of_list_to_set. Qed.

(** C10: every constructed profile has at least one marker, every marker
    key is a name the registry lists under the profile's taxid (and so
    resolves to itself), and that taxid is one species of the registry; an
    empty alleles mapping never constructs a profile: popping the empty set
    of taxids raises [KeyError]. *)
Theorem Profile_init_invariant id alleles meta p :
  Profile_init id alleles meta = inr p →
  (0 < length (_alleles p))%nat ∧
  (∀ m, m ∈ markers p →
     canonical (taxid p) m ∧ standardize_name m = Some (m, taxid p)) ∧
  is_Some (dict_get (taxid p) species_by_taxid) ∧
  alleles ≠ [] ∧
  ∀ id' meta', Profile_init id' [] meta' = inl (KeyError "pop from an empty set").
Proof.
  intros Hinit. pose proof (Profile_init_wf _ _ _ _ Hinit) as [Hne Hnd Hcan Hal].
  split_and!.
  - destruct (_alleles p); [done | simpl; lia].
  - intros m Hm%elem_of_markers. split; [by apply Hcan|].
    destruct (Hcan m Hm) as (names & Hin & Hmn). by eapply registry_idempotent.
  - destruct (_alleles p) as [|[m al] rest] eqn:Hp; [done|].
    destruct (Hcan m) as (names & Hin & _); [left|].
    by eapply registry_species.
  - intros ->. by vm_compute in Hinit.
  - intros id' meta'. by vm_compute.
Qed.

(** A constructed profile to which [Profile_init_invariant] applies. *)
Lemma Profile_init_invariant_witness :
  ∃ p, Profile_init 0 [("th01", "6, 9.3"); ("Amelogenin", "X")] [] = inr p ∧
       (0 < length (_alleles p))%nat ∧ taxid p = 9606%Z ∧
       ∀ m, m ∈ markers p → standardize_name m = Some (m, taxid p).
Proof.
  destruct (Profile_init 0 [("th01", "6, 9.3"); ("Amelogenin", "X")] [])
    as [e|p] eqn:Hinit; [by vm_compute in Hinit|].
  exists p. pose proof (Profile_init_invariant _ _ _ _ Hinit) as (Hlen & Hm & _).
  split_and!; [done | done | | intros m Hin; by apply Hm].
  vm_compute in Hinit. by injection Hinit as <-.
Defined.

(** ** Scoring *)

Lemma elem_of_Profile_iter p m a :
  (m, a) ∈ Profile_iter p ↔ ∃ al, (m, al) ∈ _alleles p ∧ a ∈ al.
Proof.
  unfold Profile_iter. rewrite list_elem_of_In, in_flat_map. split.
  - intros ([m' al] & Hin%list_elem_of_In & Hx%list_elem_of_In). simpl in Hx.
    apply list_elem_of_fmap in Hx as (a' & [= -> ->] & Ha).
    exists al. split; [done|].
    by apply elem_of_sorted, elem_of_elements in Ha.
  - intros (al & Hin & Ha). exists (m, al). split; [by apply list_elem_of_In|].
    apply list_elem_of_In. simpl. apply list_elem_of_fmap. exists a. split; [done|].
    by apply elem_of_sorted, elem_of_elements.
Qed.

Lemma elem_of_alleles p ms m a :
  (m, a) ∈ alleles p ms ↔ m ∈ ms ∧ ∃ al, (m, al) ∈ _alleles p ∧ a ∈ al.
Proof.
  unfold alleles. rewrite elem_of_list_to_set, list_elem_of_filter.
  by rewrite elem_of_Profile_iter.
Qed.

(** True division by a positive divisor. *)
Lemma truediv_pos n d : (0 < d)%nat → truediv n d = inr (Z.of_nat n # Pos.of_nat d).
Proof. intros Hd. unfold truediv. case_decide; [lia | done]. Qed.

Lemma Zpos_of_nat d : (0 < d)%nat → Z.pos (Pos.of_nat d) = Z.of_nat d.
Proof. intros Hd. rewrite <-positive_nat_Z, Nat2Pos.id by lia. done. Qed.

Lemma ratio_bounds n d : (0 < d)%nat → (n ≤ d)%nat → (0 <= Z.of_nat n # Pos.of_nat d <= 1)%Q.
Proof.
  intros Hd Hnd. unfold Qle; simpl. rewrite Zpos_of_nat by done. lia.
Qed.

Lemma ratio_one n : (0 < n)%nat → (Z.of_nat n # Pos.of_nat n == 1)%Q.
Proof. intros Hn. unfold Qeq; simpl. rewrite Zpos_of_nat by done. lia. Qed.

(** With valid arguments [score] raises nothing whenever the divisor used
    is positive, and computes the formula of the algorithm. *)
Lemma score_valid q r algorithm mode amel :
  algorithm ∈ ["Tanabe"; "query"; "reference"] →
  mode ∈ ["intersect"; "query"; "reference"] →
  let ms := markers_for_scoring q r mode amel in
  let Qn := size (alleles q ms) in
  let Rn := size (alleles r ms) in
  let S := size (alleles q ms ∩ alleles r ms) in
  (S ≤ Qn)%nat ∧ (S ≤ Rn)%nat ∧
  score q r algorithm mode amel =
    inr (if decide (0 < S)%nat then
           if decide (algorithm = "Tanabe") then Z.of_nat (2 * S) # Pos.of_nat (Qn + Rn)
           else if decide (algorithm = "query") then Z.of_nat S # Pos.of_nat Qn
           else Z.of_nat S # Pos.of_nat Rn
         else 0%Q, S).
Proof.
  intros Halg Hmode ms Qn Rn S.
  assert (S ≤ Qn)%nat as HQ by (apply subseteq_size; set_solver).
  assert (S ≤ Rn)%nat as HR by (apply subseteq_size; set_solver).
  split_and!; [done | done |].
  unfold score. rewrite bool_decide_eq_false_2 by (intros H; by apply H).
  rewrite bool_decide_eq_false_2 by (intros H; by apply H).
  fold ms. fold Qn Rn S.
  destruct (decide (0 < S)%nat) as [HS|HS]; [|done].
  repeat case_decide; rewrite truediv_pos by lia; done.
Qed.

Lemma ex_profiles_constructed :
  Profile_init 1 [("TH01", "6")] [] = inr ex_th01 ∧
  Profile_init 2 [("TH01", "6, 9.3")] [] = inr ex_th01_het ∧
  Profile_init 3 [("TH01", "6"); ("TPOX", "8")] [] = inr ex_th01_tpox ∧
  Profile_init 4 [("amelogenin", "X")] [] = inr ex_amel.
Proof. split_and!; by vm_compute. Qed.

(** C7: with a valid algorithm and mode, [score] returns (no exception, so no
    division by zero) a score between 0 and 1; the score is 0 when no allele
    is shared, and when alleles are shared both allele counts, hence every
    divisor [Q+R], [Q], [R], are positive. *)
Theorem score_in_unit_interval q r algorithm mode amel :
  algorithm ∈ ["Tanabe"; "query"; "reference"] →
  mode ∈ ["intersect"; "query"; "reference"] →
  let ms := markers_for_scoring q r mode amel in
  let Qn := size (alleles q ms) in
  let Rn := size (alleles r ms) in
  let S := size (alleles q ms ∩ alleles r ms) in
  ∃ sc, score q r algorithm mode amel = inr (sc, S) ∧
        (0 <= sc <= 1)%Q ∧
        (S = 0%nat → sc = 0%Q) ∧
        ((0 < S)%nat →
           (0 < Qn)%nat ∧ (0 < Rn)%nat ∧ (0 < Qn + Rn)%nat ∧
           sc = if decide (algorithm = "Tanabe") then Z.of_nat (2 * S) # Pos.of_nat (Qn + Rn)
                else if decide (algorithm = "query") then Z.of_nat S # Pos.of_nat Qn
                else Z.of_nat S # Pos.of_nat Rn).
Proof.
  intros Halg Hmode ms Qn Rn S.
  destruct (score_valid q r algorithm mode amel Halg Hmode) as (HQ & HR & ->).
  fold ms. fold Qn Rn S. fold ms in HQ, HR. fold Qn S in HQ. fold Rn S in HR.
  eexists. split; [done|].
  destruct (decide (0 < S)%nat) as [HS|HS].
  - split; [|split; [lia | intros _; split_and!; [lia | lia | lia | done]]].
    repeat case_decide; apply ratio_bounds; lia.
  - split; [done | split; [done | lia]].
Qed.

Lemma score_in_unit_interval_witness :
  "query" ∈ ["Tanabe"; "query"; "reference"] ∧
  "intersect" ∈ ["intersect"; "query"; "reference"] ∧
  ∃ sc, score ex_th01_het ex_th01 "query" "intersect" false = inr (sc, 1%nat) ∧
        (0 <= sc <= 1)%Q.
Proof.
  assert ("query" ∈ ["Tanabe"; "query"; "reference"]) as Halg by set_solver.
  assert ("intersect" ∈ ["intersect"; "query"; "reference"]) as Hmode by set_solver.
  split_and!; [done | done |].
  destruct (score_in_unit_interval ex_th01_het ex_th01 "query" "intersect" false
              Halg Hmode) as (sc & Hsc & Hb & _).
  exists sc. split; [|done]. rewrite Hsc. by vm_compute.
Defined.

(** The markers evaluated when a profile is scored against itself. *)
Lemma markers_for_scoring_self p amel :
  markers_for_scoring p p "intersect" amel =
    if amel then markers p else filter (λ m, m ≠ "Amelogenin") (markers p).
Proof.
  unfold markers_for_scoring. rewrite decide_True by done.
  by replace (markers p ∩ markers p) with (markers p) by set_solver.
Qed.

(** In a constructed profile every evaluated marker contributes an allele. *)
Lemma alleles_nonempty p ms :
  Profile_wf p → (∃ m, m ∈ ms ∧ m ∈ markers p) → (0 < size (alleles p ms))%nat.
Proof.
  intros Hwf (m & Hms & Hm). apply elem_of_markers, list_elem_of_fmap in Hm as ([m' al] & -> & Hin).
  simpl in Hms. destruct (wf_alleles _ Hwf _ _ Hin) as [s ->].
  pose proof (parse_allele_string_nonempty s) as Hne.
  apply set_choose_L in Hne as [a Ha].
  assert ((m', a) ∈ alleles p ms) as Hel by (apply elem_of_alleles; eauto).
  assert (size (alleles p ms) ≠ 0%nat) as Hne
    by (apply size_non_empty_iff; set_solver).
  lia.
Qed.

Lemma alleles_empty p ms : (∀ m, m ∈ ms → m ∉ markers p) → alleles p ms = ∅.
Proof.
  intros Hms. apply set_eq. intros [m a]. rewrite elem_of_alleles.
  split; [|set_solver]. intros (Hm & al & Hin & _). exfalso.
  apply (Hms m Hm), elem_of_markers, list_elem_of_fmap. by exists (m, al).
Qed.

(** C2 (as stated, refuted): a profile whose only marker is Amelogenin,
    scored against itself without Amelogenin, gets the score 0.0. *)
Lemma score_self_amelogenin_only :
  Profile_init 4 [("amelogenin", "X")] [] = inr ex_amel ∧
  score ex_amel ex_amel "Tanabe" "intersect" false = inr (0%Q, 0%nat) ∧
  ¬ (0 == 1)%Q.
Proof. split_and!; by vm_compute. Qed.

(** C2 (amended): for every constructed profile P and every [amel], the
    Tanabe score of P against itself in mode intersect is exactly 1.0 when
    the evaluated marker set is non-empty, and 0.0 when it is empty, that is
    when [amel] is false and Amelogenin is the only marker of P; in both
    cases the shared-allele count is the number of (marker, allele) pairs of
    P on the evaluated markers. *)
Theorem score_self id als meta p amel :
  Profile_init id als meta = inr p →
  let ms := markers_for_scoring p p "intersect" amel in
  ∃ sc, score p p "Tanabe" "intersect" amel = inr (sc, size (alleles p ms)) ∧
        (ms ≠ ∅ → (sc == 1)%Q) ∧
        (ms = ∅ → sc = 0%Q) ∧
        (ms = ∅ ↔ amel = false ∧ markers p = {[ "Amelogenin" ]}).
Proof.
  intros Hinit ms. pose proof (Profile_init_wf _ _ _ _ Hinit) as Hwf.
  destruct (score_valid p p "Tanabe" "intersect" amel) as (_ & _ & ->);
    [set_solver | set_solver |].
  fold ms. replace (alleles p ms ∩ alleles p ms) with (alleles p ms) by set_solver.
  assert (ms ⊆ markers p) as Hsub.
  { unfold ms. rewrite markers_for_scoring_self. destruct amel; set_solver. }
  assert (markers p ≠ ∅) as Hmne.
  { pose proof (wf_nonempty _ Hwf) as Hne. unfold markers, dict_keys.
    destruct (_alleles p) as [|[m al] rest]; [done | set_solver]. }
  eexists. split; [done|]. split_and!.
  - intros Hne. apply set_choose_L in Hne as [m Hm].
    assert (0 < size (alleles p ms))%nat as Hpos
      by (apply alleles_nonempty; [done | exists m; set_solver]).
    rewrite decide_True by done. rewrite decide_True by done.
    replace (2 * size (alleles p ms))%nat
      with (size (alleles p ms) + size (alleles p ms))%nat by lia.
    apply ratio_one. lia.
  - intros Hempty. rewrite alleles_empty by (rewrite Hempty; set_solver).
    by rewrite size_empty.
  - unfold ms. rewrite markers_for_scoring_self. destruct amel.
    + split; [done | intros [? _]; done].
    + split.
      * intros Hf. split; [done|]. apply set_eq. intros m.
        rewrite elem_of_singleton. split.
        -- intros Hm. destruct (decide (m = "Amelogenin")) as [|Hne]; [done|].
           exfalso. assert (m ∈ filter (λ m, m ≠ "Amelogenin") (markers p)) as Hin
             by (apply elem_of_filter; done).
           rewrite Hf in Hin. set_solver.
        -- intros ->. apply set_choose_L in Hmne as [m Hm].
           destruct (decide (m = "Amelogenin")) as [<-|Hne]; [done|].
           exfalso. assert (m ∈ filter (λ m, m ≠ "Amelogenin") (markers p)) as Hin
             by (apply elem_of_filter; done).
           rewrite Hf in Hin. set_solver.
      * intros [_ ->]. apply set_eq. intros m. rewrite elem_of_filter. set_solver.
Qed.

Lemma score_self_witness :
  Profile_init 3 [("TH01", "6"); ("TPOX", "8")] [] = inr ex_th01_tpox ∧
  ∃ sc, score ex_th01_tpox ex_th01_tpox "Tanabe" "intersect" false = inr (sc, 2%nat) ∧
        (sc == 1)%Q.
Proof.
  assert (Profile_init 3 [("TH01", "6"); ("TPOX", "8")] [] = inr ex_th01_tpox) as Hinit
    by by vm_compute.
  split; [done|].
  destruct (score_self _ _ _ _ false Hinit) as (sc & Hsc & Hone & _).
  exists sc. split.
  - rewrite Hsc. by vm_compute.
  - apply Hone. by vm_compute.
Defined.

(** C4 (as stated, refuted): under Tanabe in mode query the evaluated
    markers are those of the first argument, and the score changes when the
    two profiles are exchanged. *)
Lemma score_Tanabe_query_mode_asymmetric :
  score ex_th01 ex_th01_tpox "Tanabe" "query" false = inr (2 # 2, 1%nat) ∧
  score ex_th01_tpox ex_th01 "Tanabe" "query" false = inr (2 # 3, 1%nat) ∧
  ¬ (2 # 2 == 2 # 3)%Q.
Proof. split_and!; by vm_compute. Qed.

Lemma markers_for_scoring_swap a b mode amel :
  markers_for_scoring a b mode amel =
    markers_for_scoring b a
      (if decide (mode = "intersect") then "intersect"
       else if decide (mode = "query") then "reference" else "query") amel.
Proof.
  unfold markers_for_scoring.
  destruct (decide (mode = "intersect")) as [->|Hi].
  - rewrite decide_True by done. by rewrite (comm_L (∩) (markers a)).
  - destruct (decide (mode = "query")) as [->|Hq]; done.
Qed.

(** C4 (amended): under Tanabe the score is symmetric in mode intersect,
    and in modes query and reference once the mode is exchanged together
    with the profiles; under the algorithms query and reference the score
    is not symmetric in general. *)
Theorem score_Tanabe_symmetric a b amel :
  score a b "Tanabe" "intersect" amel = score b a "Tanabe" "intersect" amel ∧
  score a b "Tanabe" "query" amel = score b a "Tanabe" "reference" amel ∧
  score a b "Tanabe" "reference" amel = score b a "Tanabe" "query" amel ∧
  (∃ p q s1 s2 n, score p q "query" "intersect" false = inr (s1, n) ∧
                  score q p "query" "intersect" false = inr (s2, n) ∧
                  ¬ (s1 == s2)%Q) ∧
  (∃ p q s1 s2 n, score p q "reference" "intersect" false = inr (s1, n) ∧
                  score q p "reference" "intersect" false = inr (s2, n) ∧
                  ¬ (s1 == s2)%Q).
Proof.
  assert (∀ mode mode', mode ∈ ["intersect"; "query"; "reference"] →
            mode' = (if decide (mode = "intersect") then "intersect"
                     else if decide (mode = "query") then "reference" else "query") →
            score a b "Tanabe" mode amel = score b a "Tanabe" mode' amel) as Hsym.
  { intros mode mode' Hmode ->.
    destruct (score_valid a b "Tanabe" mode amel) as (_ & _ & ->); [set_solver | done |].
    destruct (score_valid b a "Tanabe"
                (if decide (mode = "intersect") then "intersect"
                 else if decide (mode = "query") then "reference" else "query") amel)
      as (_ & _ & ->); [set_solver | repeat case_decide; set_solver |].
    rewrite <-markers_for_scoring_swap.
    set (ms := markers_for_scoring a b mode amel).
    rewrite (comm_L (∩) (alleles b ms)).
    by rewrite (Nat.add_comm (size (alleles b ms))). }
  split_and!.
  - by apply Hsym; [set_solver|].
  - by apply Hsym; [set_solver|].
  - by apply Hsym; [set_solver|].
  - exists ex_th01, ex_th01_het, (1 # 1)%Q, (1 # 2)%Q, 1%nat. split_and!; by vm_compute.
  - exists ex_th01_het, ex_th01, (1 # 1)%Q, (1 # 2)%Q, 1%nat. split_and!; by vm_compute.
Qed.

(** ** Strings: splitting and joining *)

Lemma chars_str l : chars (str l) = l.
Proof. apply list_ascii_of_string_of_list_ascii. Qed.

Lemma str_chars s : str (chars s) = s.
Proof. apply string_of_list_ascii_of_string. Qed.

Lemma chars_app s t : chars (s +:+ t) = chars s ++ chars t.
Proof. induction s as [|c s IH]; simpl; [done | by rewrite IH]. Qed.

Lemma remove_char_id c s : c ∉ chars s → remove_char c s = s.
Proof.
  intros Hc. unfold remove_char. rewrite <-(str_chars s) at 2. f_equal.
  induction (chars s) as [|x l IH]; [done|].
  apply not_elem_of_cons in Hc as [Hx Hl].
  rewrite filter_cons, decide_True by done. by rewrite IH.
Qed.

Lemma chars_remove_char c s : c ∉ chars (remove_char c s).
Proof.
  unfold remove_char. rewrite chars_str. intros Hin%list_elem_of_filter. by destruct Hin.
Qed.

(** The pieces of a split hold no separator, and only characters of the
    string split. *)
Lemma split_chars_tokens c cur l t x :
  t ∈ split_chars c cur l → x ∈ chars t → x ≠ c ∨ x ∈ cur.
Proof.
  revert cur. induction l as [|y l IH]; intros cur; simpl.
  - intros ->%list_elem_of_singleton. rewrite chars_str, elem_of_reverse. auto.
  - destruct (decide (y = c)) as [->|Hne].
    + intros [->|Hin]%elem_of_cons Hx.
      * rewrite chars_str, elem_of_reverse in Hx. auto.
      * destruct (IH _ Hin Hx) as [?|Hnil]; [auto | by apply elem_of_nil in Hnil].
    + intros Hin Hx. destruct (IH _ Hin Hx) as [?|[->|?]%elem_of_cons]; auto.
Qed.

Lemma split_chars_subset c cur l t x :
  t ∈ split_chars c cur l → x ∈ chars t → x ∈ cur ∨ x ∈ l.
Proof.
  revert cur. induction l as [|y l IH]; intros cur; simpl.
  - intros ->%list_elem_of_singleton. rewrite chars_str, elem_of_reverse. auto.
  - destruct (decide (y = c)) as [->|Hne].
    + intros [->|Hin]%elem_of_cons Hx.
      * rewrite chars_str, elem_of_reverse in Hx. auto.
      * destruct (IH _ Hin Hx) as [Hnil|?]; [by apply elem_of_nil in Hnil|].
        right. by right.
    + intros Hin Hx. destruct (IH _ Hin Hx) as [[->|?]%elem_of_cons|?].
      * right. left.
      * by left.
      * right. by right.
Qed.

Lemma split_chars_app c cur l rest :
  c ∉ l → split_chars c cur (l ++ rest) = split_chars c (reverse l ++ cur) rest.
Proof.
  revert cur. induction l as [|x l IH]; intros cur Hc; [done|].
  apply not_elem_of_cons in Hc as [Hx Hl]. csimpl.
  rewrite decide_False by done. rewrite IH by done.
  by rewrite reverse_cons, <-app_assoc.
Qed.

(** Splitting a join of separator-free pieces gives the pieces back. *)
Lemma split_chars_join c cur t ts :
  Forall (λ t, c ∉ chars t) (t :: ts) →
  split_chars c cur (chars (join (String c EmptyString) (t :: ts))) =
    str (reverse cur ++ chars t) :: ts.
Proof.
  revert cur t. induction ts as [|t' ts IH]; intros cur t Hall.
  - apply Forall_cons in Hall as [Ht _].
    change (join (String c EmptyString) [t]) with t.
    rewrite <-(app_nil_r (chars t)) at 1. rewrite split_chars_app by done.
    simpl. by rewrite reverse_app, reverse_involutive.
  - apply Forall_cons in Hall as [Ht Hall].
    change (join (String c EmptyString) (t :: t' :: ts))
      with (t +:+ String c EmptyString +:+ join (String c EmptyString) (t' :: ts)).
    rewrite !chars_app. rewrite split_chars_app by done.
    change (chars (String c EmptyString)) with [c].
    change ([c] ++ ?l) with (c :: l).
    cbn [split_chars]. rewrite decide_True by done. rewrite IH by done.
    rewrite reverse_app, reverse_involutive.
    change (reverse [] ++ chars t') with (chars t'). by rewrite str_chars.
Qed.

Lemma split_join c ts :
  ts ≠ [] → Forall (λ t, c ∉ chars t) ts → split c (join (String c EmptyString) ts) = ts.
Proof.
  intros Hne Hall. destruct ts as [|t ts]; [done|].
  unfold split. rewrite split_chars_join by done. simpl. by rewrite str_chars.
Qed.

(** ** The persisted format *)

(** The tokens of a parsed allele string hold no comma and no space. *)
Lemma parse_allele_string_token s t :
  t ∈ parse_allele_string s → (","%char ∉ chars t) ∧ (" "%char ∉ chars t).
Proof.
  unfold parse_allele_string, split. rewrite elem_of_list_to_set. intros Hin. split.
  - intros Hx. destruct (split_chars_tokens _ _ _ _ _ Hin Hx) as [?|Hnil]; [done|].
    by apply elem_of_nil in Hnil.
  - intros Hx. destruct (split_chars_subset _ _ _ _ _ Hin Hx) as [Hnil|Hsp].
    + by apply elem_of_nil in Hnil.
    + by apply chars_remove_char in Hsp.
Qed.

(** Parsing the rendering of a parsed allele set gives the set back. *)
Lemma parse_allele_string_render s :
  let al := parse_allele_string s in
  parse_allele_string (join "," (sorted String.ltb (elements al))) = al.
Proof.
  intros al. set (toks := sorted String.ltb (elements al)).
  assert (∀ t, t ∈ toks ↔ t ∈ al) as Htoks.
  { intros t. unfold toks. by rewrite elem_of_sorted, elem_of_elements. }
  assert (toks ≠ []) as Hne.
  { pose proof (parse_allele_string_nonempty s) as Hal.
    apply set_choose_L in Hal as [t Ht]. apply Htoks in Ht.
    intros Heq. rewrite Heq in Ht. by apply elem_of_nil in Ht. }
  assert (Forall (λ t, ","%char ∉ chars t) toks) as Hcomma.
  { apply Forall_forall. intros t Ht%Htoks. by destruct (parse_allele_string_token _ _ Ht). }
  assert (" "%char ∉ chars (join "," toks)) as Hspace.
  { clear Hne Hcomma. assert (Forall (λ t, " "%char ∉ chars t) toks) as Hsp.
    { apply Forall_forall. intros t Ht%Htoks. by destruct (parse_allele_string_token _ _ Ht). }
    clear Htoks. induction toks as [|t [|t' ts] IH].
    - apply not_elem_of_nil.
    - by apply Forall_cons in Hsp as [? _].
    - apply Forall_cons in Hsp as [Ht Hsp].
      change (join "," (t :: t' :: ts)) with (t +:+ "," +:+ join "," (t' :: ts)).
      rewrite !chars_app, !elem_of_app. intros [?|[Hc|?]]; [done | | by apply IH].
      simpl in Hc. apply list_elem_of_singleton in Hc. done. }
  unfold parse_allele_string at 1. rewrite remove_char_id by done.
  rewrite split_join by done. apply set_eq. intros t.
  by rewrite elem_of_list_to_set.
Qed.

Lemma dict_set_fresh {K V} `{EqDecision K} (k : K) (v : V) d :
  k ∉ dict_keys d → dict_set k v d = d ++ [(k, v)].
Proof.
  unfold dict_keys. induction d as [|[k' v'] d IH]; csimpl; [done|].
  intros [Hne Hd]%not_elem_of_cons. rewrite decide_False by done. by rewrite IH.
Qed.

(** The loop of [Profile.__init__] over a rendered allele table rebuilds
    the table it was rendered from. *)
Lemma init_loop_render mapping pre suf :
  NoDup (dict_keys (pre ++ suf)) →
  (∀ m al, (m, al) ∈ suf →
     dict_get m mapping = Some m ∧ ∃ s, al = parse_allele_string s) →
  foldM (init_step mapping) pre
    ((λ ma, (ma.1, join "," (sorted String.ltb (elements ma.2)))) <$> suf)
  = inr (pre ++ suf).
Proof.
  revert pre. induction suf as [|[m al] suf IH]; intros pre Hnd Hsuf; csimpl.
  - by rewrite app_nil_r.
  - destruct (Hsuf m al) as (Hg & s & ->); [left|].
    unfold init_step at 1. simpl. rewrite Hg. simpl.
    rewrite parse_allele_string_render.
    unfold dict_keys in Hnd. rewrite fmap_app in Hnd. csimpl in Hnd.
    rewrite dict_set_fresh; cycle 1.
    { apply NoDup_app in Hnd as (_ & Hdisj & _). intros Hin.
      apply (Hdisj _ Hin). left. }
    rewrite IH.
    + by rewrite <-app_assoc.
    + unfold dict_keys. rewrite <-app_assoc, fmap_app. by csimpl.
    + intros m' al' Hin. apply Hsuf. by right.
Qed.

(** Constructing a profile from the payload of a constructed profile gives
    the same profile back, as a new object. *)
Lemma Profile_init_payload p id :
  Profile_wf p →
  Profile_init id (allele_dict p) (_meta p) =
    inr (mkProfile id (_meta p) (taxid p) (_alleles p)).
Proof.
  intros [Hne Hnd Hcan Hal]. unfold Profile_init.
  assert (dict_keys (allele_dict p) = dict_keys (_alleles p)) as Hkeys.
  { unfold allele_dict, dict_keys. rewrite <-list_fmap_compose. done. }
  rewrite Hkeys.
  destruct (validate_names_single_species (dict_keys (_alleles p)) (taxid p))
    as (mapping & -> & _ & Hmap).
  { unfold dict_keys. by destruct (_alleles p). }
  { intros n Hn. destruct (Hcan n Hn) as (names & Hin & Hnn).
    unfold taxid_of. by rewrite (registry_idempotent _ _ _ Hin Hnn). }
  simpl. unfold allele_dict.
  rewrite (init_loop_render mapping [] (_alleles p)); [done | done |].
  intros m al Hin. split; [|by eapply Hal].
  assert (m ∈ dict_keys (_alleles p)) as Hm.
  { apply list_elem_of_fmap. by exists (m, al). }
  destruct (Hmap m Hm) as (c & Hs & Hg).
  destruct (Hcan m Hm) as (names & Hin' & Hnn).
  rewrite (registry_idempotent _ _ _ Hin' Hnn) in Hs. by injection Hs as <-.
Qed.

Lemma from_json_loop_payload db id :
  Forall Profile_wf db →
  ∃ db', from_json_loop id (payload <$> db) = inr db' ∧
         payload <$> db' = payload <$> db.
Proof.
  revert id. induction db as [|p db IH]; intros id Hwf; csimpl.
  - by exists [].
  - apply Forall_cons in Hwf as [Hp Hdb].
    rewrite Profile_init_payload by done. simpl.
    destruct (IH (S id) Hdb) as (db' & -> & Heq). simpl.
    eexists. split; [done|]. csimpl. by rewrite Heq.
Qed.

(** C8: the document written for a database of constructed profiles loads
    back, and the database loaded is written as the same document: a saved
    and reloaded database re-saves to the same byte stream. *)
Theorem to_json_round_trip (db : list Profile) (id : nat) :
  Forall (λ p, ∃ id0 als meta, Profile_init id0 als meta = inr p) db →
  ∃ db', from_json id (to_json db) = inr db' ∧ to_json db' = to_json db.
Proof.
  intros Hdb.
  assert (Forall Profile_wf db) as Hwf.
  { eapply Forall_impl; [exact Hdb|]. intros p (id0 & als & meta & Hinit).
    by eapply Profile_init_wf. }
  destruct (from_json_loop_payload db id Hwf) as (db' & Hload & Heq).
  exists db'. unfold to_json, from_json. by rewrite Hload, Heq.
Qed.

Lemma to_json_round_trip_witness :
  Forall (λ p, ∃ id0 als meta, Profile_init id0 als meta = inr p)
    [ex_th01_het; ex_th01_tpox] ∧
  ∃ db', from_json 10 (to_json [ex_th01_het; ex_th01_tpox]) = inr db' ∧
         to_json db' = to_json [ex_th01_het; ex_th01_tpox].
Proof.
  assert (Forall (λ p, ∃ id0 als meta, Profile_init id0 als meta = inr p)
            [ex_th01_het; ex_th01_tpox]) as Hdb.
  { repeat constructor.
    - exists 2%nat, [("TH01", "6, 9.3")], []. by vm_compute.
    - exists 3%nat, [("TH01", "6"); ("TPOX", "8")], []. by vm_compute. }
  split; [exact Hdb|].
  exact (to_json_round_trip [ex_th01_het; ex_th01_tpox] 10 Hdb).
Defined.

(** ** The order of strings *)

Lemma ascii_compare_eq a b : (a ?= b)%char = Eq ↔ a = b.
Proof.
  split; [apply Ascii.compare_eq_iff|]. intros ->. unfold Ascii.compare.
  apply N.compare_refl.
Qed.

Lemma string_compare_refl s : (s ?= s) = Eq.
Proof.
  induction s as [|c s IH]; simpl; [done|].
  by rewrite (proj2 (ascii_compare_eq c c) eq_refl).
Qed.

Lemma string_compare_Lt_trans a b c :
  (a ?= b) = Lt → (b ?= c) = Lt → (a ?= c) = Lt.
Proof.
  revert b c. induction a as [|x a IH]; intros [|y b] [|z c]; simpl; try done.
  destruct (x ?= y)%char eqn:Hxy; [|intros _|done].
  - apply ascii_compare_eq in Hxy as ->.
    destruct (y ?= z)%char; [apply IH | done | done].
  - destruct (y ?= z)%char eqn:Hyz; [|intros _|done].
    + apply ascii_compare_eq in Hyz as ->. by rewrite Hxy.
    + unfold Ascii.compare in *. rewrite N.compare_lt_iff in Hxy, Hyz.
      assert ((N_of_ascii x ?= N_of_ascii z)%N = Lt) as -> by (apply N.compare_lt_iff; lia).
      done.
Qed.

Lemma string_ltb_irrefl s : String.ltb s s = false.
Proof. unfold String.ltb. by rewrite string_compare_refl. Qed.

Lemma string_ltb_trans a b c :
  String.ltb a b = true → String.ltb b c = true → String.ltb a c = true.
Proof.
  unfold String.ltb. destruct (a ?= b) eqn:Hab; try done.
  destruct (b ?= c) eqn:Hbc; try done.
  by rewrite (string_compare_Lt_trans _ _ _ Hab Hbc).
Qed.

Lemma string_ltb_asym a b : String.ltb a b = true → String.ltb b a = false.
Proof.
  unfold String.ltb. rewrite (String.compare_antisym b a).
  by destruct (a ?= b).
Qed.

Lemma string_ltb_total a b :
  String.ltb a b = false → String.ltb b a = false → a = b.
Proof.
  unfold String.ltb. rewrite (String.compare_antisym b a).
  destruct (a ?= b) eqn:Hab; simpl; try done.
  intros _ _. by apply String.compare_eq_iff.
Qed.

(** [a <= b], that is [not (b < a)], is transitive. *)
Lemma string_le_trans a b c :
  String.ltb b a = false → String.ltb c b = false → String.ltb c a = false.
Proof.
  intros Hab Hbc. destruct (String.ltb c a) eqn:Hca; [|done].
  destruct (String.ltb a b) eqn:Hab'.
  - by rewrite (string_ltb_trans _ _ _ Hca Hab') in Hbc.
  - rewrite (string_ltb_total _ _ Hab' Hab) in Hca. congruence.
Qed.

(** ** Sortedness of [sorted] *)

Section sorted_order.
Context {A : Type} (lt : A → A → bool).
Hypothesis lt_asym : ∀ x y, lt x y = true → lt y x = false.
Hypothesis le_trans : ∀ x y z, lt y x = false → lt z y = false → lt z x = false.

Lemma insert_sorted_StronglySorted x l :
  StronglySorted (λ x y, lt y x = false) l → StronglySorted (λ x y, lt y x = false) (insert_sorted lt x l).
Proof.
  induction 1 as [|y l Hl IH Hy]; simpl.
  - repeat constructor.
  - destruct (lt y x) eqn:Hyx.
    + constructor; [done|]. apply Forall_forall. intros z Hz.
      rewrite insert_sorted_Permutation in Hz. apply elem_of_cons in Hz as [->|Hz].
      * by apply lt_asym.
      * rewrite Forall_forall in Hy. by apply Hy.
    + constructor; [by constructor|]. constructor; [done|].
      eapply Forall_impl; [exact Hy|]. intros z Hz. by eapply le_trans.
Qed.

Lemma sorted_StronglySorted l : StronglySorted (λ x y, lt y x = false) (sorted lt l).
Proof.
  induction l as [|x l IH]; simpl; [constructor|].
  by apply insert_sorted_StronglySorted.
Qed.

(** The reverse sort is descending: no element is below a later one. *)
Lemma sorted_reverse_StronglySorted l :
  StronglySorted (λ x y, lt x y = false) (sorted_reverse lt l).
Proof.
  unfold sorted_reverse.
  pose proof (sorted_StronglySorted (reverse l)) as Hs.
  induction Hs as [|x s Hs IH Hx]; [constructor|].
  rewrite reverse_cons. apply StronglySorted_app_2; [|done|repeat constructor].
  intros y z Hy ->%list_elem_of_singleton.
  rewrite elem_of_reverse in Hy. rewrite Forall_forall in Hx. by apply Hx.
Qed.
End sorted_order.


(** ** Sorting with a comparison that may raise *)

Section sortedM_lemmas.
Context {A : Type} (lt : A → A → res bool).



(** Where the comparison raises nothing, [sortedM] is [sorted]. *)
Lemma insert_sortedM_pure (ltb : A → A → bool) x l :
  (∀ y, y ∈ l → lt y x = inr (ltb y x)) →
  insert_sortedM lt x l = inr (insert_sorted ltb x l).
Proof.
  induction l as [|y l IH]; intros Hlt; simpl; [done|].
  rewrite Hlt by left. simpl. destruct (ltb y x); [|done].
  rewrite IH; [done|]. intros z Hz. apply Hlt. by right.
Qed.

Lemma sortedM_pure (ltb : A → A → bool) l :
  (∀ x y, x ∈ l → y ∈ l → lt x y = inr (ltb x y)) →
  sortedM lt l = inr (sorted ltb l).
Proof.
  induction l as [|x l IH]; intros Hlt; simpl; [done|].
  rewrite IH by (intros y z Hy Hz; apply Hlt; by right). simpl.
  apply insert_sortedM_pure. intros y Hy%elem_of_sorted.
  apply Hlt; [by right | left].
Qed.
End sortedM_lemmas.

(** ** Rendering of allele sets *)

Lemma Qltb_asym x y : Qltb x y = true → Qltb y x = false.
Proof.
  unfold Qltb. rewrite !negb_true_iff, negb_false_iff.
  intros Hyx. apply Qle_bool_iff.
  destruct (Qlt_le_dec y x) as [Hlt|Hle]; [|done].
  apply Qlt_le_weak, Qle_bool_iff in Hlt. congruence.
Qed.

Lemma Qltb_false x y : Qltb y x = false ↔ (x <= y)%Q.
Proof. unfold Qltb. by rewrite negb_false_iff, Qle_bool_iff. Qed.

Lemma Qltb_le_trans x y z : Qltb y x = false → Qltb z y = false → Qltb z x = false.
Proof. rewrite !Qltb_false. apply Qle_trans. Qed.










(** ** Strict weak orders *)

Lemma swo_Q : swo Qeq_bool Qltb.
Proof.
  split.
  - apply Qltb_asym.
  - apply Qltb_le_trans.
  - intros x y. rewrite Qeq_bool_iff, !Qltb_false. split.
    + intros Heq. rewrite Heq. split; apply Qle_refl.
    + intros [? ?]. by apply Qle_antisym.
Qed.

Lemma swo_nat : swo Nat.eqb Nat.ltb.
Proof.
  split.
  - intros x y. rewrite Nat.ltb_lt, Nat.ltb_ge. lia.
  - intros x y z. rewrite !Nat.ltb_ge. lia.
  - intros x y. rewrite Nat.eqb_eq, !Nat.ltb_ge. lia.
Qed.

Lemma swo_string : swo String.eqb String.ltb.
Proof.
  split.
  - apply string_ltb_asym.
  - apply string_le_trans.
  - intros x y. rewrite String.eqb_eq. split.
    + intros ->. by rewrite string_ltb_irrefl.
    + intros [? ?]. by apply string_ltb_total.
Qed.

Section lex.
Context {A B : Type} (eqA ltA : A → A → bool) (eqB ltB : B → B → bool).
Hypothesis HA : swo eqA ltA.
Hypothesis HB : swo eqB ltB.

Lemma swo_eq_sym {C} (eqC ltC : C → C → bool) x y :
  swo eqC ltC → eqC x y = eqC y x.
Proof.
  intros H. apply eq_true_iff_eq. rewrite !(swo_eq _ _ H). tauto.
Qed.

Lemma swo_lex : swo (lex_eqb eqA eqB) (lex_ltb eqA ltA ltB).
Proof.
  destruct HA as [asymA transA eqA_iff], HB as [asymB transB eqB_iff].
  split.
  - intros [a1 a2] [b1 b2]. unfold lex_ltb; simpl.
    rewrite (swo_eq_sym eqA ltA b1 a1 HA).
    destruct (eqA a1 b1); simpl; auto.
  - intros [a1 a2] [b1 b2] [c1 c2]. unfold lex_ltb; simpl.
    pose proof (eqA_iff a1 b1) as Hab. pose proof (eqA_iff b1 a1) as Hba.
    pose proof (eqA_iff b1 c1) as Hbc. pose proof (eqA_iff c1 b1) as Hcb.
    pose proof (eqA_iff a1 c1) as Hac. pose proof (eqA_iff c1 a1) as Hca.
    pose proof (transA a1 b1 c1) as T1. pose proof (transA b1 c1 a1) as T2.
    pose proof (transA c1 a1 b1) as T3. pose proof (transA a1 c1 b1) as T4.
    pose proof (transA b1 a1 c1) as T5. pose proof (transA c1 b1 a1) as T6.
    pose proof (asymA a1 b1) as S1. pose proof (asymA b1 a1) as S2.
    pose proof (asymA b1 c1) as S3. pose proof (asymA c1 b1) as S4.
    pose proof (asymA a1 c1) as S5. pose proof (asymA c1 a1) as S6.
    pose proof (transB a2 b2 c2) as TB.
    destruct (eqA b1 a1), (eqA c1 b1), (eqA c1 a1), (eqA a1 b1), (eqA b1 c1),
      (eqA a1 c1), (ltA a1 b1), (ltA b1 a1), (ltA b1 c1), (ltA c1 b1),
      (ltA a1 c1), (ltA c1 a1); simpl; intuition congruence.
  - intros [a1 a2] [b1 b2]. unfold lex_ltb, lex_eqb; simpl.
    rewrite (swo_eq_sym eqA ltA b1 a1 HA).
    pose proof (eqA_iff a1 b1) as Hab. pose proof (eqB_iff a2 b2) as Hab2.
    destruct (eqA a1 b1); simpl; [tauto|].
    split; [done|]. intros [? ?]. assert (false = true) by tauto. done.
Qed.
End lex.

Lemma swo_slug : swo slug_eqb slug_ltb.
Proof.
  unfold slug_eqb, slug_ltb.
  apply swo_lex; [|apply swo_string]. apply swo_lex; apply swo_string.
Qed.

Lemma swo_key :
  swo (lex_eqb Qeq_bool (lex_eqb Nat.eqb slug_eqb)) key_ltb.
Proof.
  unfold key_ltb. apply swo_lex; [apply swo_Q|].
  apply swo_lex; [apply swo_nat | apply swo_slug].
Qed.

Lemma swo_search_key : swo (lex_eqb Qeq_bool Nat.eqb) SearchResult.key_lt.
Proof. apply (swo_lex _ _ _ _ swo_Q swo_nat). Qed.

(** ** Search results *)

Lemma elem_of_dict_set {K V} `{EqDecision K} (k k' : K) (v v' : V) d :
  NoDup (dict_keys d) → (k', v') ∈ dict_set k v d →
  (k' = k ∧ v' = v) ∨ (k' ≠ k ∧ (k', v') ∈ d).
Proof.
  intros Hnd Hin.
  assert (dict_get k' (dict_set k v d) = Some v') as Hg
    by (apply dict_elem_get; [by apply dict_set_NoDup | done]).
  destruct (decide (k' = k)) as [->|Hne].
  - rewrite dict_get_set_eq in Hg. left. split; congruence.
  - rewrite dict_get_set_ne in Hg by done. right. split; [done|].
    by apply dict_get_Some_elem.
Qed.

Lemma max_from_elem {A} (lt : A → A → bool) x l : max_from lt x l ∈ x :: l.
Proof.
  unfold max_from. revert x. induction l as [|y l IH]; intros x; simpl; [left|].
  destruct (lt x y).
  - right. apply IH.
  - specialize (IH x). apply elem_of_cons in IH as [->|?]; [left | right; by right].
Qed.

(** The maximum is not below any element. *)
Lemma max_from_ge {A} (eqb lt : A → A → bool) x l y :
  swo eqb lt → y ∈ x :: l → lt (max_from lt x l) y = false.
Proof.
  intros [asym trans eq_iff]. unfold max_from.
  assert (∀ z, lt z z = false) as Hirr.
  { intros z. destruct (lt z z) eqn:Hz; [|done]. by rewrite (asym _ _ Hz) in Hz. }
  revert x. induction l as [|z l IH]; intros x Hy; simpl.
  - apply list_elem_of_singleton in Hy as ->. apply Hirr.
  - assert (∀ m w, lt m w = false →
              lt (foldl (λ m y, if lt m y then y else m) m l) w = false) as Hmono.
    { clear -trans asym Hirr. induction l as [|u l IHl]; intros m w Hmw; simpl; [done|].
      destruct (lt m u) eqn:Hmu; [|by apply IHl].
      apply IHl. eapply trans; [exact Hmw|]. by apply asym. }
    apply elem_of_cons in Hy as [->|Hy].
    + apply Hmono. destruct (lt x z) eqn:Hxz; [by apply asym | apply Hirr].
    + destruct (lt x z) eqn:Hxz.
      * apply IH. apply elem_of_cons in Hy as [->|Hy]; [left | by right].
      * apply elem_of_cons in Hy as [->|Hy].
        -- apply Hmono. done.
        -- apply IH. by right.
Qed.

Lemma top_score_inr (r : CellLineResult.t) :
  r ≠ [] → CellLineResult.top_score r = inr (top_score_of r).
Proof. unfold CellLineResult.top_score, top_score_of. by destruct r. Qed.

Lemma top_score_elem (r : CellLineResult.t) :
  r ≠ [] → ∃ x, x ∈ r ∧ ProfileResult.score x = top_score_of r.
Proof.
  intros Hne. unfold top_score_of. destruct r as [|x r]; [done|]. csimpl.
  pose proof (max_from_elem Qltb (ProfileResult.score x) (ProfileResult.score <$> r)) as Hin.
  apply elem_of_cons in Hin as [Heq|Hin].
  - exists x. split; [left | done].
  - apply list_elem_of_fmap in Hin as (y & Heq & Hy). exists y. split; [by right | done].
Qed.

Lemma top_score_shared_alleles_inr (r : CellLineResult.t) :
  r ≠ [] → CellLineResult.top_score_shared_alleles r = inr (top_shared_of r).
Proof.
  intros Hne. unfold CellLineResult.top_score_shared_alleles, top_shared_of.
  rewrite (top_score_inr r Hne).
  assert (∀ l acc,
    foldM (λ acc single_result,
             bind (inr (top_score_of r)) (λ ts,
               if Qeq_bool (ProfileResult.score single_result) ts
               then ret (acc ++ [ProfileResult.shared_alleles single_result])
               else ret acc)) acc l
    = inr (acc ++ (ProfileResult.shared_alleles <$>
             filter (λ x, Qeq_bool (ProfileResult.score x) (top_score_of r) = true) l)))
    as Hfold.
  { induction l as [|x l IH]; intros acc; [by rewrite app_nil_r|].
    rewrite filter_cons. cbn [foldM]. unfold bind at 2.
    destruct (Qeq_bool (ProfileResult.score x) (top_score_of r)) eqn:Hx.
    - rewrite decide_True by done. unfold ret at 1, bind at 1. rewrite IH.
      f_equal. rewrite <-app_assoc. reflexivity.
    - rewrite decide_False by congruence. unfold ret at 1, bind at 1. by rewrite IH. }
  rewrite Hfold. unfold bind. rewrite app_nil_l.
  destruct (top_score_elem r Hne) as (x & Hx & Hscore).
  assert (x ∈ filter (λ x, Qeq_bool (ProfileResult.score x) (top_score_of r) = true) r) as Hin.
  { apply list_elem_of_filter. split; [|done]. rewrite Hscore. apply Qeq_bool_refl. }
  unfold py_max.
  destruct (filter _ r) as [|y l]; [by apply elem_of_nil in Hin | reflexivity].
Qed.

(** The dict of a search result stays well formed. *)
Lemma add_profile_result_wf self result self' :
  results_wf (SearchResult.results_by_cell_line self) →
  SearchResult.add_profile_result self result = inr self' →
  results_wf (SearchResult.results_by_cell_line self') ∧
  SearchResult.minscore self' = SearchResult.minscore self ∧
  SearchResult.maxhits self' = SearchResult.maxhits self.
Proof.
  intros [Hnd Hwf]. unfold SearchResult.add_profile_result.
  destruct (Profile_identifier (ProfileResult.reference result)) as [e|key] eqn:Hid;
    simpl; [done|].
  destruct (hashable key) eqn:Hh; [|done]. intros [= <-]. simpl.
  split; [|done]. split; [by apply dict_set_NoDup|].
  intros k r Hin. apply elem_of_dict_set in Hin; [|done].
  destruct Hin as [[-> ->]|[Hne Hin]]; [|by apply Hwf].
  split_and!; [by destruct (default [] _) | done |].
  intros x [Hx|Hx]%elem_of_app.
  - destruct (dict_get key (SearchResult.results_by_cell_line self)) as [cur|] eqn:Hg;
      simpl in Hx; [|by apply elem_of_nil in Hx].
    apply dict_get_Some_elem in Hg. by apply (Hwf _ _ Hg).
  - by apply list_elem_of_singleton in Hx as ->.
Qed.

Lemma built_wf results self self' :
  results_wf (SearchResult.results_by_cell_line self) →
  foldM SearchResult.add_profile_result self results = inr self' →
  results_wf (SearchResult.results_by_cell_line self') ∧
  SearchResult.minscore self' = SearchResult.minscore self ∧
  SearchResult.maxhits self' = SearchResult.maxhits self.
Proof.
  revert self. induction results as [|x results IH]; intros self Hwf; simpl.
  - by intros [= <-].
  - destruct (SearchResult.add_profile_result self x) as [e|self1] eqn:Hadd; simpl; [done|].
    destruct (add_profile_result_wf _ _ _ Hwf Hadd) as (Hwf1 & Hms & Hmh).
    intros Hrest. destruct (IH _ Hwf1 Hrest) as (? & ? & ?).
    split_and!; [done | congruence | congruence].
Qed.

Lemma results_wf_empty : results_wf [].
Proof. split; [constructor|]. intros k r Hin. by apply elem_of_nil in Hin. Qed.

Lemma remove_dups_replicate {A} `{EqDecision A} n (k : A) :
  remove_dups (replicate (S n) k) = [k].
Proof.
  induction n as [|n IH]; [done|].
  change (replicate (S (S n)) k) with (k :: replicate (S n) k).
  cbn [remove_dups]. rewrite IH. case_decide as Hin; [done|].
  exfalso. apply Hin. left.
Qed.

(** A well-formed cell line reports the identifier it is filed under. *)
Lemma identifier_inr (d : list (value * CellLineResult.t)) k r :
  results_wf d → (k, r) ∈ d → CellLineResult.identifier r = inr k.
Proof.
  intros [_ Hwf] Hin. destruct (Hwf _ _ Hin) as (Hne & Hh & Hid).
  unfold CellLineResult.identifier.
  assert (mapM (λ x, Profile_identifier (ProfileResult.reference x)) r
          = inr (replicate (length r) k)) as ->.
  { clear Hne Hin. induction r as [|x r IH]; simpl; [done|].
    rewrite Hid by left. simpl. rewrite IH; [done|].
    intros y Hy. apply Hid. by right. }
  simpl. unfold len_set.
  assert (forallb hashable (replicate (length r) k) = true) as ->.
  { apply forallb_forall. intros y Hy%list_elem_of_In%elem_of_replicate. by destruct Hy as [-> _]. }
  unfold bind, ret. destruct r as [|x r]; [done|].
  change (length (x :: r)) with (S (length r)).
  rewrite remove_dups_replicate. reflexivity.
Qed.

Lemma StronglySorted_weaken_elem {A} (R R' : A → A → Prop) l :
  (∀ x y, x ∈ l → y ∈ l → R x y → R' x y) → StronglySorted R l → StronglySorted R' l.
Proof.
  intros HR Hs. induction Hs as [|x l Hl IH Hx]; constructor.
  - apply IH. intros y z Hy Hz. apply HR; by right.
  - rewrite Forall_forall in Hx |- *. intros y Hy. apply HR; [left | by right | by apply Hx].
Qed.

Lemma StronglySorted_fmap {A B} (f : A → B) (R : B → B → Prop) l :
  StronglySorted (λ x y, R (f x) (f y)) l → StronglySorted R (f <$> l).
Proof.
  induction 1 as [|x l Hl IH Hx]; csimpl; constructor; [done|].
  by apply Forall_fmap.
Qed.

(** The keys [sorted_results] computes are the sort keys of the cell lines. *)
Lemma sorted_results_inr (self : SearchResult.t) :
  results_wf (SearchResult.results_by_cell_line self) →
  SearchResult.sorted_results self =
    inr (ranked_results (SearchResult.results_by_cell_line self)).
Proof.
  intros [_ Hwf]. unfold SearchResult.sorted_results, ranked_results.
  assert (∀ l : list (list ProfileResult.t), Forall (λ r, r ≠ []) l →
    mapM (λ result,
            let* ts := CellLineResult.top_score result in
            let* tsa := CellLineResult.top_score_shared_alleles result in
            ret ((ts, tsa), result)) l
    = inr ((λ r, (search_key r, r)) <$> l)) as Hkeys.
  { induction l as [|r l IH]; intros Hl; [done|].
    apply Forall_cons in Hl as [Hr Hl]. cbn [mapM].
    rewrite (top_score_inr r Hr), (top_score_shared_alleles_inr r Hr).
    unfold bind at 2 3. unfold ret at 1, bind at 1. rewrite (IH Hl). reflexivity. }
  rewrite Hkeys; [done|]. apply Forall_forall. intros r Hr.
  apply list_elem_of_fmap in Hr as ([k r'] & -> & Hin). by apply (Hwf _ _ Hin).
Qed.

Lemma ranked_results_Permutation d : ranked_results d ≡ₚ dict_values d.
Proof.
  unfold ranked_results. rewrite sorted_reverse_Permutation.
  rewrite <-list_fmap_compose. by rewrite list_fmap_id.
Qed.

(** The ranking is descending on the sort key. *)
Lemma ranked_results_sorted d :
  StronglySorted (λ a b, SearchResult.key_lt (search_key a) (search_key b) = false)
    (ranked_results d).
Proof.
  unfold ranked_results. apply StronglySorted_fmap.
  set (keyed := (λ r, (search_key r, r)) <$> dict_values d).
  apply (StronglySorted_weaken_elem (λ a b, SearchResult.key_lt a.1 b.1 = false)).
  - assert (∀ p, p ∈ sorted_reverse (λ a b, SearchResult.key_lt a.1 b.1) keyed →
              p.1 = search_key p.2) as Hp.
    { intros p. rewrite sorted_reverse_Permutation. unfold keyed.
      intros (r & -> & _)%list_elem_of_fmap. done. }
    intros x y Hx Hy. by rewrite (Hp x Hx), (Hp y Hy).
  - apply sorted_reverse_StronglySorted.
    + intros x y. apply (swo_asym _ _ swo_search_key).
    + intros x y z. apply (swo_le_trans _ _ swo_search_key).
Qed.

(** The loop of [__iter__]: the cap, then the threshold, then the yield. *)
Lemma iter_loop_inr (self : SearchResult.t) l n :
  results_wf (SearchResult.results_by_cell_line self) →
  (∀ r, r ∈ l → r ∈ dict_values (SearchResult.results_by_cell_line self)) →
  let qualifies r := negb (Qltb (top_score_of r) (SearchResult.minscore self)) in
  SearchResult.iter_loop self n l =
    inr (if (0 <? SearchResult.maxhits self)%Z
         then take (Z.to_nat (SearchResult.maxhits self) - n) (take_while qualifies l)
         else take_while qualifies l).
Proof.
  intros Hwf Hl qualifies. revert n.
  induction l as [|r l IH]; intros n; cbn [SearchResult.iter_loop take_while].
  - destruct (0 <? _)%Z; [by rewrite take_nil | done].
  - assert (r ∈ dict_values (SearchResult.results_by_cell_line self)) as Hr
      by (apply Hl; left).
    apply list_elem_of_fmap in Hr as ([k r'] & -> & Hin). simpl.
    rewrite (identifier_inr _ _ _ Hwf Hin). unfold bind at 1.
    destruct Hwf as [Hnd Hwf'].
    rewrite (dict_elem_get _ _ _ Hnd Hin). simpl.
    destruct (Hwf' _ _ Hin) as (Hne & _ & _).
    rewrite (top_score_inr r' Hne). unfold bind at 1.
    rewrite IH by (intros y Hy; apply Hl; by right).
    assert (qualifies r' = negb (Qltb (top_score_of r') (SearchResult.minscore self)))
      as Hqr by done.
    destruct (0 <? SearchResult.maxhits self)%Z eqn:Hpos; simpl; rewrite Hqr.
    + apply Z.ltb_lt in Hpos.
      destruct (SearchResult.maxhits self <=? Z.of_nat n)%Z eqn:Hcap.
      * apply Z.leb_le in Hcap.
        replace (Z.to_nat (SearchResult.maxhits self) - n)%nat with 0%nat by lia.
        by rewrite take_0.
      * apply Z.leb_gt in Hcap.
        destruct (Qltb (top_score_of r') (SearchResult.minscore self)); simpl.
        -- by rewrite take_nil.
        -- replace (Z.to_nat (SearchResult.maxhits self) - n)%nat
             with (S (Z.to_nat (SearchResult.maxhits self) - S n))%nat by lia.
           done.
    + by destruct (Qltb (top_score_of r') (SearchResult.minscore self)).
Qed.

Lemma filter_none {A} (P : A → Prop) `{∀ x, Decision (P x)} (l : list A) :
  Forall (λ x, ¬ P x) l → filter P l = [].
Proof.
  induction 1 as [|x l Hx Hl IH]; [done|].
  rewrite filter_cons, decide_False by done. exact IH.
Qed.

(** On a descending ranking the threshold cuts off a suffix: the prefix
    kept holds every cell line that qualifies. *)
Lemma take_while_filter (minscore : Q) l :
  StronglySorted (λ a b, SearchResult.key_lt (search_key a) (search_key b) = false) l →
  take_while (λ r, negb (Qltb (top_score_of r) minscore)) l =
    filter (λ r, negb (Qltb (top_score_of r) minscore) = true) l.
Proof.
  induction 1 as [|x l Hl IH Hx]; [done|].
  cbn [take_while]. rewrite filter_cons.
  destruct (Qltb (top_score_of x) minscore) eqn:Hq.
  - cbn [negb]. rewrite decide_False by done. symmetry. apply filter_none.
    rewrite Forall_forall in Hx |- *. intros y Hy Hqy. specialize (Hx y Hy).
    apply negb_true_iff in Hqy.
    assert (Qltb (top_score_of x) (top_score_of y) = false) as Hxy.
    { unfold SearchResult.key_lt in Hx. cbn [search_key fst snd] in Hx.
      destruct (Qeq_bool (top_score_of x) (top_score_of y)) eqn:He;
        cbn [negb] in Hx; [|done].
      apply Qeq_bool_iff in He. apply Qltb_false. rewrite He. apply Qle_refl. }
    pose proof (Qltb_le_trans _ _ _ Hqy Hxy) as Hcontra. congruence.
  - cbn [negb]. rewrite decide_True by done. by rewrite IH.
Qed.

(** C6.  Iterating a search result built by [add_profile_result] ranks the
    cell lines in descending order of (top_score, top_score_shared_alleles),
    a permutation of the cell lines held; it yields the longest prefix of
    that ranking whose top scores are not below [minscore], cut to
    [maxhits] entries when [maxhits > 0] and uncut when [maxhits <= 0].
    The prefix holds every cell line of the ranking that qualifies:
    stopping at the first one below the threshold skips none. *)
Theorem SearchResult_iter_ranked query minscore maxhits results self :
  foldM SearchResult.add_profile_result (SearchResult.init query minscore maxhits) results
    = inr self →
  ∃ ranked,
    SearchResult.sorted_results self = inr ranked ∧
    ranked ≡ₚ dict_values (SearchResult.results_by_cell_line self) ∧
    (∀ r, r ∈ ranked →
       CellLineResult.top_score r = inr (search_key r).1 ∧
       CellLineResult.top_score_shared_alleles r = inr (search_key r).2) ∧
    StronglySorted (λ a b, SearchResult.key_lt (search_key a) (search_key b) = false)
      ranked ∧
    take_while (λ r, negb (Qltb (top_score_of r) minscore)) ranked =
      filter (λ r, negb (Qltb (top_score_of r) minscore) = true) ranked ∧
    SearchResult.iter self =
      inr (if (0 <? maxhits)%Z
           then take (Z.to_nat maxhits)
                  (take_while (λ r, negb (Qltb (top_score_of r) minscore)) ranked)
           else take_while (λ r, negb (Qltb (top_score_of r) minscore)) ranked).
Proof.
  intros Hbuilt.
  destruct (built_wf results (SearchResult.init query minscore maxhits) self
              results_wf_empty Hbuilt) as (Hwf & Hms & Hmh).
  cbn [SearchResult.init SearchResult.minscore SearchResult.maxhits] in Hms, Hmh.
  exists (ranked_results (SearchResult.results_by_cell_line self)).
  pose proof (ranked_results_Permutation (SearchResult.results_by_cell_line self)) as Hperm.
  split_and!.
  - by apply sorted_results_inr.
  - exact Hperm.
  - intros r Hr. rewrite Hperm in Hr.
    apply list_elem_of_fmap in Hr as ([k r'] & -> & Hin).
    destruct Hwf as [_ Hwf]. destruct (Hwf _ _ Hin) as (Hne & _).
    split; [by apply top_score_inr | by apply top_score_shared_alleles_inr].
  - apply ranked_results_sorted.
  - apply take_while_filter, ranked_results_sorted.
  - unfold SearchResult.iter. rewrite (sorted_results_inr _ Hwf). unfold bind.
    rewrite iter_loop_inr; [|done|].
    + rewrite Hms, Hmh, Nat.sub_0_r. reflexivity.
    + intros r Hr. by rewrite Hperm in Hr.
Qed.

Lemma SearchResult_iter_ranked_witness :
  foldM SearchResult.add_profile_result (SearchResult.init ex_query (3 # 5) 1) ex_results
    = inr ex_search ∧
  ∃ ranked,
    SearchResult.sorted_results ex_search = inr ranked ∧
    SearchResult.iter ex_search =
      inr (take 1 (take_while (λ r, negb (Qltb (top_score_of r) (3 # 5))) ranked)).
Proof.
  assert (foldM SearchResult.add_profile_result (SearchResult.init ex_query (3 # 5) 1)
            ex_results = inr ex_search) as Hbuilt by by vm_compute.
  split; [exact Hbuilt|].
  destruct (SearchResult_iter_ranked _ _ _ _ _ Hbuilt) as (ranked & Hs & _ & _ & _ & _ & Hi).
  exists ranked. split; [exact Hs | exact Hi].
Defined.

(** ** The order of profile results *)

Lemma slug_lt_strings s o : slug_lt (slug_value s) (slug_value o) = inr (slug_ltb s o).
Proof.
  destruct s as [[i a] s], o as [[i' a'] s'].
  unfold slug_lt, slug_value, slug_ltb, lex_ltb, lex_eqb. cbn [fst snd].
  destruct (String.eqb_spec i i') as [->|Hi].
  - rewrite bool_decide_eq_true_2 by done. cbn [negb andb].
    destruct (String.eqb_spec a a') as [->|Ha].
    + rewrite bool_decide_eq_true_2 by done. cbn [negb].
      destruct (String.eqb_spec s s') as [->|Hs].
      * rewrite bool_decide_eq_true_2 by done. cbn [negb].
        by rewrite string_ltb_irrefl.
      * rewrite bool_decide_eq_false_2 by congruence. reflexivity.
    + rewrite bool_decide_eq_false_2 by congruence. reflexivity.
  - rewrite bool_decide_eq_false_2 by congruence. reflexivity.
Qed.

Lemma slug_ltb_irrefl s : slug_ltb s s = false.
Proof.
  destruct (slug_ltb s s) eqn:Hs; [|done].
  by rewrite (swo_asym _ _ swo_slug _ _ Hs) in Hs.
Qed.

Lemma key_ltb_irrefl k : key_ltb k k = false.
Proof.
  destruct (key_ltb k k) eqn:Hk; [|done].
  by rewrite (swo_asym _ _ swo_key _ _ Hk) in Hk.
Qed.

(** Between results of one sample, [<] is the order of the keys. *)
Lemma ProfileResult_lt_result_key a b :
  ProfileResult.sample a = ProfileResult.sample b →
  string_slug (ProfileResult.reference a) →
  string_slug (ProfileResult.reference b) →
  (py_id (ProfileResult.reference a) = py_id (ProfileResult.reference b) →
   ProfileResult.reference a = ProfileResult.reference b) →
  ProfileResult.lt a b = inr (key_ltb (result_key a) (result_key b)).
Proof.
  intros Hs Ha Hb Hid. unfold ProfileResult.lt, key_ltb, result_key, lex_ltb.
  cbn [fst snd]. rewrite bool_decide_eq_true_2 by done. cbn [negb].
  destruct (Qeq_bool (ProfileResult.score a) (ProfileResult.score b)); cbn [negb]; [|done].
  destruct (ProfileResult.shared_alleles a =? ProfileResult.shared_alleles b)%nat;
    cbn [negb]; [|done].
  destruct (Nat.eqb_spec (py_id (ProfileResult.reference a))
              (py_id (ProfileResult.reference b))) as [Heq|Hne]; cbn [negb].
  - by rewrite (Hid Heq), slug_ltb_irrefl.
  - unfold Profile_lt. rewrite Ha, Hb. cbn [bind]. apply slug_lt_strings.
Qed.

Lemma Profile_slug_inr p i a s :
  Profile_slug p = inr (i, a, s) →
  Profile_identifier p = inr i ∧ getitem (_meta p) "accession" = inr a ∧
  Profile_source p = inr s.
Proof.
  unfold Profile_slug.
  destruct (Profile_identifier p) as [?|i']; cbn [bind]; [done|].
  destruct (getitem (_meta p) "accession") as [?|a']; cbn [bind]; [done|].
  destruct (Profile_source p) as [?|s']; cbn [bind]; [done|].
  by intros [= -> -> ->].
Qed.

Lemma len_set_const (l : list value) v :
  l ≠ [] → hashable v = true → (∀ x, x ∈ l → x = v) → len_set l = inr 1%nat.
Proof.
  intros Hne Hh Hall.
  assert (l = replicate (length l) v) as ->.
  { clear Hne. induction l as [|x l IH]; [done|]. cbn [length replicate].
    rewrite (Hall x) by left. f_equal. apply IH. intros y Hy. apply Hall. by right. }
  unfold len_set.
  assert (forallb hashable (replicate (length l) v) = true) as ->.
  { apply forallb_forall. intros y Hy%list_elem_of_In%elem_of_replicate.
    by destruct Hy as [-> _]. }
  destruct l as [|x l]; [done|].
  change (length (x :: l)) with (S (length l)).
  by rewrite remove_dups_replicate.
Qed.

Lemma cell_line_sample smp ident self :
  cell_line_wf smp ident self → CellLineResult.sample self = inr smp.
Proof.
  intros (Hne & Hh & Hall & _). unfold CellLineResult.sample.
  rewrite (len_set_const _ smp).
  - cbn [bind]. rewrite decide_True by done.
    destruct self as [|x self]; [done|]. csimpl. f_equal. by apply Hall; left.
  - by destruct self.
  - done.
  - intros x (a & -> & Ha)%list_elem_of_fmap. by apply Hall.
Qed.

Lemma cell_line_identifier smp ident self :
  cell_line_wf smp ident self →
  CellLineResult.identifier self = inr (VAtom (VStr ident)).
Proof.
  intros (Hne & Hh & Hall & _).
  apply (identifier_inr [(VAtom (VStr ident), self)]); [|left].
  split; [repeat constructor; set_solver|].
  intros k r Hin. apply list_elem_of_singleton in Hin. injection Hin as -> ->.
  split_and!; [done..|].
  intros x Hx. destruct (Hall x Hx) as (_ & Hslug & <-).
  by destruct (Profile_slug_inr _ _ _ _ Hslug) as (-> & _).
Qed.

(** The ranking of one cell line is the descending sort by key. *)
Lemma cell_line_ranked smp ident self :
  cell_line_wf smp ident self →
  CellLineResult.ranked self =
    inr (sorted_reverse (λ a b, key_ltb (result_key a) (result_key b)) self).
Proof.
  intros (Hne & Hh & Hall & Hid).
  unfold CellLineResult.ranked, sortedM_reverse, sorted_reverse.
  rewrite (sortedM_pure _ (λ a b, key_ltb (result_key a) (result_key b))); [done|].
  intros x y Hx Hy. rewrite elem_of_reverse in Hx, Hy.
  destruct (Hall x Hx) as (Hsx & Hslx & _), (Hall y Hy) as (Hsy & Hsly & _).
  apply ProfileResult_lt_result_key; [congruence | done | done | by apply Hid].
Qed.

(** C5 (as stated, refuted): a result is a tuple whose first field is the
    sample, and the order of tuples looks at the sample before the score.
    Here the key of [a] is below the key of [b], and [a] is not below [b];
    [b] is below [a]. *)
Lemma ProfileResult_lt_sample_first :
  let a := ProfileResult.mk (VAtom (VStr "s2")) (1 # 2) 3 (ex_reference 10 "A" "ATCC") in
  let b := ProfileResult.mk (VAtom (VStr "s1")) (9 # 10) 5 (ex_reference 11 "B" "ATCC") in
  key_ltb (result_key a) (result_key b) = true ∧
  ProfileResult.lt a b = inr false ∧
  ProfileResult.lt b a = inr true.
Proof. split_and!; by vm_compute. Qed.

(** C5 (amended).  Between two results of the same sample whose references
    carry string identifier, accession and source, [a < b] holds exactly
    when the key (score, shared_alleles, slug) of [a] is below that of [b].
    For the results of one cell line of a search, [sorted(self,
    reverse=True)] succeeds, its first element is a result of the cell line
    whose key no other result exceeds, and [summary] reports the score,
    shared alleles and source of that element. *)
Theorem CellLineResult_best_key smp ident self :
  cell_line_wf smp ident self →
  (∀ a b,
     ProfileResult.sample a = ProfileResult.sample b →
     string_slug (ProfileResult.reference a) →
     string_slug (ProfileResult.reference b) →
     (py_id (ProfileResult.reference a) = py_id (ProfileResult.reference b) →
      ProfileResult.reference a = ProfileResult.reference b) →
     ProfileResult.lt a b = inr (key_ltb (result_key a) (result_key b))) ∧
  ∃ best rest,
    CellLineResult.ranked self = inr (best :: rest) ∧
    best :: rest ≡ₚ self ∧
    (∀ x, x ∈ self → key_ltb (result_key best) (result_key x) = false) ∧
    CellLineResult.summary self =
      inr (smp, VAtom (VStr ident),
           (ProfileResult.score best, ProfileResult.shared_alleles best,
            VAtom (VStr (slug_strings (ProfileResult.reference best)).2))).
Proof.
  intros Hwf. split; [apply ProfileResult_lt_result_key|].
  pose proof (cell_line_ranked _ _ _ Hwf) as Hranked.
  set (ltb := λ a b, key_ltb (result_key a) (result_key b)) in *.
  pose proof (sorted_reverse_Permutation ltb self) as Hperm.
  assert (StronglySorted (λ x y, ltb x y = false) (sorted_reverse ltb self)) as Hsorted.
  { apply sorted_reverse_StronglySorted.
    - intros x y. apply (swo_asym _ _ swo_key).
    - intros x y z. apply (swo_le_trans _ _ swo_key). }
  destruct (sorted_reverse ltb self) as [|best rest] eqn:Hs.
  { destruct Hwf as (Hne & _). apply Permutation_nil_l in Hperm. by symmetry in Hperm. }
  exists best, rest. split_and!; [done | done | |].
  - intros x Hx. rewrite <-Hperm in Hx. apply StronglySorted_inv in Hsorted as [_ Hbest].
    apply elem_of_cons in Hx as [->|Hx]; [apply key_ltb_irrefl|].
    rewrite Forall_forall in Hbest. by apply Hbest.
  - unfold CellLineResult.summary. rewrite Hranked. cbn [bind].
    assert (best ∈ self) as Hbest by (rewrite <-Hperm; left).
    destruct Hwf as (Hne & Hh & Hall & Hid).
    destruct (Hall best Hbest) as (_ & Hslug & _).
    destruct (Profile_slug_inr _ _ _ _ Hslug) as (_ & _ & ->). cbn [bind].
    rewrite (cell_line_sample smp ident self) by done. cbn [bind].
    rewrite (cell_line_identifier smp ident self) by done. reflexivity.
Qed.

Lemma CellLineResult_best_key_witness :
  cell_line_wf (VAtom (VStr "query")) "A" ex_cell_line ∧
  ∃ best rest,
    CellLineResult.ranked ex_cell_line = inr (best :: rest) ∧
    CellLineResult.summary ex_cell_line =
      inr (VAtom (VStr "query"), VAtom (VStr "A"),
           (ProfileResult.score best, ProfileResult.shared_alleles best,
            VAtom (VStr (slug_strings (ProfileResult.reference best)).2))).
Proof.
  assert (cell_line_wf (VAtom (VStr "query")) "A" ex_cell_line) as Hwf.
  { split_and!.
    - done.
    - reflexivity.
    - intros a Ha. unfold ex_cell_line in Ha.
      apply elem_of_cons in Ha as [->|Ha]; [by vm_compute|].
      apply list_elem_of_singleton in Ha as ->. by vm_compute.
    - intros a b Ha Hb. unfold ex_cell_line in Ha, Hb.
      apply elem_of_cons in Ha as [->|Ha]; apply elem_of_cons in Hb as [->|Hb];
        try apply list_elem_of_singleton in Ha as ->;
        try apply list_elem_of_singleton in Hb as ->;
        cbn [ProfileResult.reference ex_reference py_id]; intros Heq;
        [reflexivity | discriminate Heq | discriminate Heq | reflexivity]. }
  split; [exact Hwf|].
  destruct (CellLineResult_best_key _ _ _ Hwf) as (_ & best & rest & Hr & _ & _ & Hsum).
  exists best, rest. split; [exact Hr | exact Hsum].
Defined.

(** ** The flat-file parser *)

Lemma prefix_cons_inv a p s :
  String.prefix (String a p) s = true → ∃ s', s = String a s' ∧ String.prefix p s' = true.
Proof.
  destruct s as [|b s]; simpl; [done|].
  destruct (Ascii.ascii_dec a b) as [->|]; [|done]. by exists s.
Qed.

(** The key cut from a line starts with the characters read before the
    first whitespace. *)
Lemma split_whitespace_once_key cur l key value :
  split_whitespace_once cur l = [key; value] →
  ∃ more, key = str (reverse cur ++ more).
Proof.
  revert cur. induction l as [|c l IH]; intros cur; simpl; [done|].
  destruct (is_space c).
  - intros [= <- _]. exists []. by rewrite app_nil_r.
  - intros (more & ->)%IH. exists (c :: more).
    by rewrite reverse_cons, <-app_assoc.
Qed.

Lemma dict_has_keys {V} (k : string) (d : list (string * V)) :
  dict_has k d = true → k ∈ dict_keys d.
Proof.
  unfold dict_has. rewrite bool_decide_eq_true. intros [v Hv].
  apply dict_get_Some_elem in Hv. apply list_elem_of_fmap. by exists (k, v).
Qed.

Lemma entry_meta_wf_empty : entry_meta_wf [].
Proof. split_and!; [constructor | intros k v Hin; by apply elem_of_nil in Hin | done]. Qed.

Lemma entry_meta_wf_keys meta k :
  entry_meta_wf meta → k ∈ dict_keys meta →
  k ∈ ["identifier"; "accession"; "synonyms"; "taxid"; "organism"].
Proof.
  intros (_ & Hty & _) ([k' v] & -> & Hin)%list_elem_of_fmap.
  destruct (Hty _ _ Hin) as [[Hk _]|[[-> _]|[-> _]]]; set_solver.
Qed.

(** Storing a string under one of the three attribute names keeps the
    invariant. *)
Lemma entry_meta_wf_set_string meta attribute s :
  entry_meta_wf meta → attribute ∈ ["identifier"; "accession"; "synonyms"] →
  entry_meta_wf (dict_set attribute (VAtom (VStr s)) meta).
Proof.
  intros (Hnd & Hty & Hlen) Hattr. split_and!.
  - by apply dict_set_NoDup.
  - intros k v Hin. apply elem_of_dict_set in Hin; [|done].
    destruct Hin as [[-> ->]|[_ Hin]]; [|by apply Hty].
    left. split; [done | by exists s].
  - assert (attribute ≠ "taxid" ∧ attribute ≠ "organism") as [H1 H2].
    { split; intros ->; set_solver. }
    by rewrite !dict_get_set_ne.
Qed.

(** The key cut from a line that starts with ID, AC or SY is none of the
    names the metadata is stored under. *)
Lemma line_key_not_stored line key value meta :
  startswith line "ID" || startswith line "AC" || startswith line "SY" = true →
  split_whitespace_once [] (chars line) = [key; value] →
  entry_meta_wf meta → dict_has key meta = false.
Proof.
  intros Hstart Hsplit Hwf.
  destruct (dict_has key meta) eqn:Hhas; [|done]. exfalso.
  apply dict_has_keys in Hhas. pose proof (entry_meta_wf_keys _ _ Hwf Hhas) as Hk.
  assert (∃ a b more, (a, b) ∈ [("I", "D"); ("A", "C"); ("S", "Y")]%char ∧
            key = String a (String b more)) as (a & b & more & Hab & ->).
  { unfold startswith in Hstart.
    apply orb_true_iff in Hstart as [Hstart|Hstart];
      [apply orb_true_iff in Hstart as [Hstart|Hstart]|];
      apply prefix_cons_inv in Hstart as (s1 & -> & Hstart);
      apply prefix_cons_inv in Hstart as (s2 & -> & _);
      cbn in Hsplit;
      apply split_whitespace_once_key in Hsplit as (more & ->);
      eexists _, _, (str more); (split; [|reflexivity]); set_solver. }
  set_solver.
Qed.

Lemma append_item_inl d k a e : append_item d k a = inl e → is_AssertionError e = false.
Proof.
  unfold append_item. destruct (dict_get k d) as [[?|?]|]; by intros [= <-].
Qed.

(** [parse_meta] keeps the invariant, and its assertion never fails. *)
Lemma parse_meta_wf self line :
  entry_meta_wf (CellosaurusEntry.meta self) →
  match CellosaurusEntry.parse_meta self line with
  | inl e => is_AssertionError e = false
  | inr self' =>
      entry_meta_wf (CellosaurusEntry.meta self') ∧
      CellosaurusEntry.alleles self' = CellosaurusEntry.alleles self ∧
      CellosaurusEntry.warnings self' = CellosaurusEntry.warnings self
  end.
Proof.
  intros Hwf. unfold CellosaurusEntry.parse_meta.
  destruct (startswith line "ID" || startswith line "AC" || startswith line "SY")
    eqn:Hstart.
  - destruct (split_whitespace_once [] (chars line)) as [|key [|value [|? ?]]] eqn:Hsplit;
      try done.
    rewrite (line_key_not_stored _ _ _ _ Hstart Hsplit Hwf).
    destruct (dict_get key CellosaurusEntry.ATTRIBUTES) as [attribute|] eqn:Hattr; [|done].
    cbn [CellosaurusEntry.meta CellosaurusEntry.alleles CellosaurusEntry.warnings ret].
    split; [|done]. apply entry_meta_wf_set_string; [done|].
    apply dict_get_Some_elem in Hattr. unfold CellosaurusEntry.ATTRIBUTES in Hattr.
    set_solver.
  - destruct (startswith line "OX"); [|done].
    destruct (match_species line) as [[taxid organism]|]; [|done].
    destruct Hwf as (Hnd & Hty & Hlen).
    set (t := VInt (Z.of_N (digits_value (chars taxid)))).
    destruct (dict_has "taxid" (CellosaurusEntry.meta self)) eqn:Hhas.
    + unfold dict_has in Hhas. apply bool_decide_eq_true in Hhas as [v Hv].
      rewrite Hv in Hlen. destruct v as [?|taxids]; [done|].
      destruct (dict_get "organism" (CellosaurusEntry.meta self)) as [[?|organisms]|]
        eqn:Ho; try done.
      unfold append_item at 1. rewrite Hv. cbn [bind ret].
      unfold append_item. rewrite dict_get_set_ne, Ho by done. cbn [bind ret].
      cbn [CellosaurusEntry.meta CellosaurusEntry.alleles CellosaurusEntry.warnings].
      split; [|done]. split_and!.
      * by do 2 apply dict_set_NoDup.
      * intros k v Hin.
        apply elem_of_dict_set in Hin; [|by apply dict_set_NoDup].
        destruct Hin as [[-> ->]|[_ Hin]].
        { right; right. split; [done|].
          destruct (Hty _ _ (dict_get_Some_elem _ _ _ Ho)) as [[Hk _]|[[Hk _]|[_ [l Hl]]]];
            [set_solver | done |].
          injection Hl as ->. exists (l ++ [organism]). by rewrite fmap_app. }
        apply elem_of_dict_set in Hin; [|done].
        destruct Hin as [[-> ->]|[_ Hin]]; [|by apply Hty].
        right; left. split; [done|].
        destruct (Hty _ _ (dict_get_Some_elem _ _ _ Hv)) as [[Hk _]|[[_ [l Hl]]|[Hk _]]];
          [set_solver | | done].
        injection Hl as ->. exists (l ++ [Z.of_N (digits_value (chars taxid))]).
        by rewrite fmap_app.
      * rewrite dict_get_set_ne, dict_get_set_eq, dict_get_set_eq by done.
        rewrite !length_app. simpl. lia.
    + unfold dict_has in Hhas. apply bool_decide_eq_false in Hhas.
      assert (dict_get "taxid" (CellosaurusEntry.meta self) = None) as Hv.
      { destruct (dict_get "taxid" _); [|done]. exfalso. by apply Hhas. }
      rewrite Hv in Hlen.
      destruct (dict_get "organism" (CellosaurusEntry.meta self)) eqn:Ho; [done|].
      set (meta0 := CellosaurusEntry.meta self) in *.
      set (meta1 := dict_set "organism" (VList []) (dict_set "taxid" (VList []) meta0)).
      assert (NoDup (dict_keys meta1)) as Hnd1 by by do 2 apply dict_set_NoDup.
      unfold append_item at 1.
      assert (dict_get "taxid" meta1 = Some (VList [])) as ->.
      { unfold meta1. by rewrite dict_get_set_ne, dict_get_set_eq. }
      cbn [bind ret]. unfold append_item.
      rewrite dict_get_set_ne by done.
      assert (dict_get "organism" meta1 = Some (VList [])) as ->.
      { unfold meta1. by rewrite dict_get_set_eq. }
      cbn [bind ret].
      cbn [CellosaurusEntry.meta CellosaurusEntry.alleles CellosaurusEntry.warnings].
      split; [|done]. split_and!.
      * by do 2 apply dict_set_NoDup.
      * intros k v Hin.
        apply elem_of_dict_set in Hin; [|by apply dict_set_NoDup].
        destruct Hin as [[-> ->]|[_ Hin]].
        { right; right. split; [done|]. by exists [organism]. }
        apply elem_of_dict_set in Hin; [|done].
        destruct Hin as [[-> ->]|[_ Hin]].
        { right; left. split; [done|]. by exists [Z.of_N (digits_value (chars taxid))]. }
        apply elem_of_dict_set in Hin; [|by apply dict_set_NoDup].
        destruct Hin as [[-> ->]|[_ Hin]]; [right; right; split; [done|by exists []]|].
        apply elem_of_dict_set in Hin; [|done].
        destruct Hin as [[-> ->]|[_ Hin]]; [right; left; split; [done|by exists []]|].
        by apply Hty.
      * by rewrite dict_get_set_ne, dict_get_set_eq, dict_get_set_eq by done.
Qed.

Lemma parse_sources_meta self line :
  match CellosaurusEntry.parse_sources self line with
  | inl e => is_AssertionError e = false
  | inr self' => CellosaurusEntry.meta self' = CellosaurusEntry.meta self
  end.
Proof.
  unfold CellosaurusEntry.parse_sources.
  destruct (startswith line "ST" && contains "Source" line); [|done].
  by destruct (match_sources line).
Qed.

Lemma assign_source_meta marker allele_str self source :
  match CellosaurusEntry.assign_source marker allele_str self source with
  | inl e => is_AssertionError e = false
  | inr self' => CellosaurusEntry.meta self' = CellosaurusEntry.meta self
  end.
Proof.
  unfold CellosaurusEntry.assign_source.
  destruct (dict_get source (CellosaurusEntry.alleles self)); [done|].
  unfold getitem. by destruct (dict_get "identifier" (CellosaurusEntry.meta self)).
Qed.

Lemma parse_alleles_meta self line :
  match CellosaurusEntry.parse_alleles self line with
  | inl e => is_AssertionError e = false
  | inr self' => CellosaurusEntry.meta self' = CellosaurusEntry.meta self
  end.
Proof.
  unfold CellosaurusEntry.parse_alleles.
  destruct (startswith line "ST" && negb (contains "Source" line)
            && negb (contains "Not_detected" line)); [|done].
  destruct (match_alleles line) as [[[marker allele_str] [sources|]]|]; [|done..].
  generalize (split_str "; " (remove_char ")" (remove_char "(" sources))).
  intros l. revert self. induction l as [|source l IH]; intros self; [done|].
  cbn [foldM].
  pose proof (assign_source_meta marker allele_str self source) as Hstep.
  destruct (CellosaurusEntry.assign_source marker allele_str self source) as [e|self1];
    cbn [bind]; [done|].
  specialize (IH self1).
  destruct (foldM _ self1 l); [done|]. congruence.
Qed.

(** Reading one line keeps the invariant and raises no assertion failure. *)
Lemma read_line_wf self line :
  entry_meta_wf (CellosaurusEntry.meta self) →
  match (let* self := CellosaurusEntry.parse_meta self line in
         let* self := CellosaurusEntry.parse_sources self line in
         CellosaurusEntry.parse_alleles self line) with
  | inl e => is_AssertionError e = false
  | inr self' => entry_meta_wf (CellosaurusEntry.meta self')
  end.
Proof.
  intros Hwf. pose proof (parse_meta_wf self line Hwf) as H1.
  destruct (CellosaurusEntry.parse_meta self line) as [e|self1]; cbn [bind]; [done|].
  destruct H1 as (Hwf1 & _).
  pose proof (parse_sources_meta self1 line) as H2.
  destruct (CellosaurusEntry.parse_sources self1 line) as [e|self2]; cbn [bind]; [done|].
  pose proof (parse_alleles_meta self2 line) as H3.
  destruct (CellosaurusEntry.parse_alleles self2 line) as [e|self3]; [done|].
  by rewrite H3, H2.
Qed.

Lemma init_loop_wf self data :
  entry_meta_wf (CellosaurusEntry.meta self) →
  match foldM (λ self line,
                 let* self := CellosaurusEntry.parse_meta self line in
                 let* self := CellosaurusEntry.parse_sources self line in
                 CellosaurusEntry.parse_alleles self line) self data with
  | inl e => is_AssertionError e = false
  | inr self' => entry_meta_wf (CellosaurusEntry.meta self')
  end.
Proof.
  revert self. induction data as [|line data IH]; intros self Hwf; [done|].
  cbn [foldM]. pose proof (read_line_wf self line Hwf) as Hstep.
  destruct (bind (CellosaurusEntry.parse_meta self line) _) as [e|self1]; [done|].
  cbn [bind]. by apply IH.
Qed.

(** C1 (the code does otherwise).  Constructing an entry never raises an
    assertion failure, whatever the lines of the record: the assertion of
    [parse_meta] looks the line code up among the attribute names the
    metadata is stored under, where it never is.  A record with two ID
    lines is parsed without an error, and the value of the second line
    replaces the value of the first. *)
Theorem CellosaurusEntry_duplicate_code_kept :
  (∀ data e, CellosaurusEntry.init data = inl e → is_AssertionError e = false) ∧
  CellosaurusEntry.init ["ID   HeLa"; "AC   CVCL_0030"; "ID   HeLa-dup"] =
    inr (CellosaurusEntry.mk ["ID   HeLa"; "AC   CVCL_0030"; "ID   HeLa-dup"]
           [("identifier", VAtom (VStr "HeLa-dup"));
            ("accession", VAtom (VStr "CVCL_0030"))] [] []).
Proof.
  split; [|by vm_compute].
  intros data e Hinit. unfold CellosaurusEntry.init in Hinit.
  pose proof (init_loop_wf (CellosaurusEntry.mk data [] [] []) data entry_meta_wf_empty)
    as Hloop.
  by rewrite Hinit in Hloop.
Qed.
